(** * Flight planner: routing over a time-gated flight graph

    Shallow embedding of [src/flight_planner.py]: the flight record, the
    itinerary, the loader's parsing functions, the adjacency graph and
    the two priority-queue searches, followed by the properties of the
    specification that concern them.

    Python integers are unbounded, so they are [Z]; [str] is [string];
    a [dict] is a [gmap]; the [heapq] list of tuples is a list kept in
    tuple order, whose head is what [heappop] returns.

    The two [while] loops of each search are functions with an iteration
    budget: [OutOfFuel] (or [None] for the queue loop) means that the
    loop is still running when the budget is used up, and a property that
    says that a search returns is stated as "from some budget on, the
    result is this one".  A flight is any [Flight] record: the dataclass
    checks nothing, the checks are in the loader. *)

From Stdlib Require Import ZArith Ascii String List Lia Sorted.
From stdpp Require Import base option list gmap strings fin_maps pretty.

Local Open Scope string_scope.
Local Open Scope list_scope.
Local Open Scope Z_scope.

(* ===================================================================== *)
(** ** Results of possibly failing, possibly looping code *)
(* ===================================================================== *)

(** Python exceptions that the modelled code can raise. *)
Inductive exn :=
| ValueError (msg : string)
| TypeError
| KeyError (key : string).

(** A call either returns a value, raises, or is still running when the
    iteration budget of the model is used up. *)
Inductive result (A : Type) :=
| Ret (a : A)
| Raise (e : exn)
| OutOfFuel.
Arguments Ret {A} a.
Arguments Raise {A} e.
Arguments OutOfFuel {A}.

#[global] Instance result_bind : MBind result := fun A B k r =>
  match r with
  | Ret a => k a
  | Raise e => Raise e
  | OutOfFuel => OutOfFuel
  end.

(* ===================================================================== *)
(** ** Data model *)
(* ===================================================================== *)

Definition MIN_LAYOVER_MINUTES : Z := 60.

Inductive Cabin := economy_cabin | business_cabin | first_cabin.

Record Flight := mkFlight {
  origin : string;
  dest : string;
  flight_number : string;
  depart : Z;
  arrive : Z;
  economy : Z;
  business : Z;
  first : Z
}.

Definition price_for (f : Flight) (cabin : Cabin) : Z :=
  match cabin with
  | economy_cabin => economy f
  | business_cabin => business f
  | first_cabin => first f
  end.

Record Itinerary := mkItinerary { flights : list Flight }.

Definition is_empty (it : Itinerary) : bool :=
  match flights it with [] => true | _ => false end.

Definition itin_origin (it : Itinerary) : option string :=
  origin <$> head (flights it).

Definition itin_dest (it : Itinerary) : option string :=
  dest <$> last (flights it).

Definition depart_time (it : Itinerary) : option Z :=
  depart <$> head (flights it).

Definition arrive_time (it : Itinerary) : option Z :=
  arrive <$> last (flights it).

Definition total_price (it : Itinerary) (cabin : Cabin) : Z :=
  fold_left (fun acc f => acc + price_for f cabin) (flights it) 0.

Definition num_stops (it : Itinerary) : Z :=
  Z.max 0 (Z.of_nat (length (flights it)) - 1).

(* ===================================================================== *)
(** ** Time helpers and the loader *)
(* ===================================================================== *)

(** Strings are byte strings here; the string methods below are the
    Python ones restricted to ASCII text. *)

(** [str.isspace] on one character. *)
Definition is_space (c : ascii) : bool :=
  let n := nat_of_ascii c in
  ((9 <=? n) && (n <=? 13) || (28 <=? n) && (n <=? 32))%nat.

Fixpoint lstrip (l : list ascii) : list ascii :=
  match l with
  | c :: r => if is_space c then lstrip r else l
  | [] => []
  end.

(** [s.strip()] *)
Definition strip (s : string) : string :=
  string_of_list_ascii
    (rev (lstrip (rev (lstrip (list_ascii_of_string s))))).

(** [s.startswith(p)] *)
Definition startswith (p s : string) : bool := String.prefix p s.

(** [sep in s], for a one-character [sep]. *)
Definition contains_char (sep : ascii) (s : string) : bool :=
  existsb (Ascii.eqb sep) (list_ascii_of_string s).

(** [s.split(sep)] for a one-character [sep]: empty fields are kept. *)
Fixpoint split_on_aux (sep : ascii) (cur : list ascii) (l : list ascii)
  : list string :=
  match l with
  | [] => [string_of_list_ascii (rev cur)]
  | c :: r =>
      if Ascii.eqb c sep
      then string_of_list_ascii (rev cur) :: split_on_aux sep [] r
      else split_on_aux sep (c :: cur) r
  end.

Definition split_on (sep : ascii) (s : string) : list string :=
  split_on_aux sep [] (list_ascii_of_string s).

(** [s.split()]: fields are the maximal runs without whitespace. *)
Fixpoint split_ws_aux (cur : list ascii) (l : list ascii) : list string :=
  match l with
  | [] => match cur with [] => [] | _ => [string_of_list_ascii (rev cur)] end
  | c :: r =>
      if is_space c
      then match cur with
           | [] => split_ws_aux [] r
           | _ => string_of_list_ascii (rev cur) :: split_ws_aux [] r
           end
      else split_ws_aux (c :: cur) r
  end.

Definition split_ws (s : string) : list string :=
  split_ws_aux [] (list_ascii_of_string s).

(** [int(s)] in base ten, for ASCII text: blanks around the literal, an
    optional sign, then digits, where single underscores may separate
    digits.  The blanks that [int] skips are those of C's [isspace],
    fewer than [str.strip] removes; a well-formed literal of more than
    4300 digits is refused, which is the interpreter's default limit
    ([sys.set_int_max_str_digits]).  Digits and blanks outside ASCII are
    not modelled. *)
Definition is_int_space (c : ascii) : bool :=
  let n := nat_of_ascii c in
  ((9 <=? n) && (n <=? 13) || (n =? 32))%nat.

Fixpoint lstrip_int (l : list ascii) : list ascii :=
  match l with
  | c :: r => if is_int_space c then lstrip_int r else l
  | [] => []
  end.

Definition digit_val (c : ascii) : option Z :=
  let n := nat_of_ascii c in
  if ((48 <=? n) && (n <=? 57))%nat then Some (Z.of_nat n - 48) else None.

Fixpoint int_digits (acc : Z) (after_digit : bool) (l : list ascii)
  : option Z :=
  match l with
  | [] => if after_digit then Some acc else None
  | c :: r =>
      if Ascii.eqb c "_"
      then (if after_digit then int_digits acc false r else None)
      else match digit_val c with
           | Some d => int_digits (acc * 10 + d) true r
           | None => None
           end
  end.

Fixpoint count_digits (l : list ascii) : nat :=
  match l with
  | [] => O
  | c :: r => if Ascii.eqb c "_" then count_digits r else S (count_digits r)
  end.

Definition int_max_str_digits : nat := 4300.

(** The three ways [int(s)] ends. *)
Inductive int_outcome :=
| IntOk (n : Z)
| IntInvalid
| IntOverLimit (digits : nat).

(** The digits and underscores that a literal starts with, and what
    follows them. *)
Fixpoint span_digits (l : list ascii) : list ascii * list ascii :=
  match l with
  | c :: r =>
      if Ascii.eqb c "_" || bool_decide (is_Some (digit_val c))
      then let '(body, rest) := span_digits r in (c :: body, rest)
      else ([], l)
  | [] => ([], [])
  end.

(** The literal after its sign: its digits are checked first, their
    number against the limit next, and what follows them last. *)
Definition int_body (negative : bool) (l : list ascii) : int_outcome :=
  let '(body, rest) := span_digits l in
  match int_digits 0 false body with
  | None => IntInvalid
  | Some n =>
      if (int_max_str_digits <? count_digits body)%nat
      then IntOverLimit (count_digits body)
      else match rest with
           | [] => IntOk (if negative then - n else n)
           | _ :: _ => IntInvalid
           end
  end.

Definition int_parse (s : string) : int_outcome :=
  match rev (lstrip_int (rev (lstrip_int (list_ascii_of_string s)))) with
  | c :: r =>
      if Ascii.eqb c "-" then int_body true r
      else if Ascii.eqb c "+" then int_body false r
      else int_body false (c :: r)
  | [] => IntInvalid
  end.

(** [None] is a [ValueError]. *)
Definition py_int (s : string) : option Z :=
  match int_parse s with
  | IntOk n => Some n
  | _ => None
  end.

(** [repr(s)] for ASCII text: single quotes, or double quotes when the
    text has a single quote and no double one; the quote in use and the
    backslash are escaped, as are the control characters. *)
Definition double_quote : ascii := ascii_of_nat 34.
Definition single_quote : ascii := ascii_of_nat 39.
Definition backslash : ascii := ascii_of_nat 92.

Definition hex_digit (n : nat) : ascii :=
  if (n <? 10)%nat then ascii_of_nat (48 + n) else ascii_of_nat (87 + n).

Definition repr_char (quote c : ascii) : list ascii :=
  let n := nat_of_ascii c in
  if Ascii.eqb c quote || Ascii.eqb c backslash then [backslash; c]
  else if (n =? 9)%nat then [backslash; "t"%char]
  else if (n =? 10)%nat then [backslash; "n"%char]
  else if (n =? 13)%nat then [backslash; "r"%char]
  else if (n <? 32)%nat || (n =? 127)%nat
       then [backslash; "x"%char; hex_digit (n / 16); hex_digit (n mod 16)]
  else [c].

Definition py_repr (s : string) : list ascii :=
  let l := list_ascii_of_string s in
  let quote :=
    if existsb (Ascii.eqb single_quote) l
       && negb (existsb (Ascii.eqb double_quote) l)
    then double_quote else single_quote in
  quote :: concat (map (repr_char quote) l) ++ [quote].

(** [int(s)] as a call that may raise; the message of an invalid literal
    shows at most 200 characters of [repr(s)]. *)
Definition int_of (s : string) : result Z :=
  match int_parse s with
  | IntOk n => Ret n
  | IntInvalid =>
      Raise (ValueError
               ("invalid literal for int() with base 10: "
                +:+ string_of_list_ascii (firstn 200 (py_repr s))))
  | IntOverLimit digits =>
      Raise (ValueError
               ("Exceeds the limit (4300 digits) for integer string conversion: value has "
                +:+ pretty digits
                +:+ " digits; use sys.set_int_max_str_digits() to increase the limit"))
  end.

Definition parse_time (hhmm : string) : result Z :=
  if negb (contains_char ":" hhmm) then Raise (ValueError "Invalid time format")
  else
    match split_on ":" hhmm with
    | [h; m] =>
        match py_int h, py_int m with
        | Some h, Some m =>
            if negb ((0 <=? h) && (h <? 24) && (0 <=? m) && (m <? 60))
            then Raise (ValueError "Invalid time range")
            else Ret (h * 60 + m)
        | _, _ => Raise (ValueError "Invalid time format")
        end
    | _ => Raise (ValueError "too many values to unpack (expected 2)")
    end.

(** [Ret None] is the blank or comment line. *)
Definition parse_flight_line_txt (line : string) : result (option Flight) :=
  let line := strip line in
  if String.eqb line "" || startswith "#" line then Ret None
  else
    match split_ws line with
    | [o; d; num; dep; arr; e; b; f] =>
        dep_m ← parse_time dep;
        arr_m ← parse_time arr;
        if arr_m <=? dep_m then Raise (ValueError "Arrival must be after departure")
        else
          e ← int_of e;
          b ← int_of b;
          f ← int_of f;
          Ret (Some (mkFlight o d num dep_m arr_m e b f))
    | _ => Raise (ValueError "Malformed flight line")
    end.

Definition exn_text (e : exn) : string :=
  match e with
  | ValueError msg => msg
  | TypeError => "TypeError"
  | KeyError k => k
  end.

(** The file is given as its lines; [i] is the number of the next one.
    A [ValueError] is raised again with the position in front. *)
Fixpoint load_lines_txt (path : string) (i : nat) (lines : list string)
  (flights : list Flight) : result (list Flight) :=
  match lines with
  | [] => Ret flights
  | line :: rest =>
      match parse_flight_line_txt line with
      | Ret (Some fl) => load_lines_txt path (S i) rest (flights ++ [fl])
      | Ret None => load_lines_txt path (S i) rest flights
      | Raise (ValueError msg) =>
          Raise (ValueError (path +:+ ":" +:+ pretty i +:+ ": " +:+ msg))
      | Raise e => Raise e
      | OutOfFuel => OutOfFuel
      end
  end.

Definition load_flights_txt (path : string) (lines : list string)
  : result (list Flight) :=
  load_lines_txt path 1 lines [].

(** What [csv.DictReader] hands over: the header and one record per
    line, which gives the text of the cell under each column name.  A
    record is complete here: a line with fewer cells than the header,
    for which the reader fills in [None], is not modelled. *)
Record CsvTable := mkCsvTable {
  fieldnames : list string;
  rows : list (string -> string)
}.

Definition required_columns : list string :=
  ["origin"; "dest"; "flight_number"; "depart"; "arrive"; "economy";
   "business"; "first"].

(** [row[key]] *)
Definition cell (row : string -> string) (key : string) : string := row key.

Definition load_row_csv (row : string -> string) : result Flight :=
  dep ← parse_time (cell row "depart");
  arr ← parse_time (cell row "arrive");
  if arr <=? dep then Raise (ValueError "Arrival must be after departure")
  else
    e ← int_of (cell row "economy");
    b ← int_of (cell row "business");
    f ← int_of (cell row "first");
    Ret (mkFlight (cell row "origin") (cell row "dest")
           (cell row "flight_number") dep arr e b f).

Fixpoint load_rows_csv (rows : list (string -> string))
  (flights : list Flight) : result (list Flight) :=
  match rows with
  | [] => Ret flights
  | row :: rest =>
      fl ← load_row_csv row;
      load_rows_csv rest (flights ++ [fl])
  end.

Definition load_flights_csv (table : CsvTable) : result (list Flight) :=
  if negb (forallb (fun k => bool_decide (k ∈ fieldnames table))
             required_columns)
  then Raise (ValueError "Missing required CSV columns")
  else load_rows_csv (rows table) [].

(** A flight file: its suffix as [Path(path).suffix] gives it, and its
    content as each of the two readers sees it. *)
Record FlightFile := mkFlightFile {
  file_path : string;
  file_suffix : string;
  file_lines : list string;
  file_table : CsvTable
}.

Definition lower_ascii (c : ascii) : ascii :=
  let n := nat_of_ascii c in
  if ((65 <=? n) && (n <=? 90))%nat then ascii_of_nat (n + 32) else c.

(** [s.lower()] *)
Definition lower (s : string) : string :=
  string_of_list_ascii (map lower_ascii (list_ascii_of_string s)).

Definition load_flights (file : FlightFile) : result (list Flight) :=
  if String.eqb (lower (file_suffix file)) ".csv"
  then load_flights_csv (file_table file)
  else load_flights_txt (file_path file) (file_lines file).

(** [Graph = Dict[str, List[Flight]]] *)
Abbreviation Graph := (gmap string (list Flight)).

(** [graph.get(airport, [])] *)
Definition outbound (graph : Graph) (airport : string) : list Flight :=
  default [] (graph !! airport).

(** [graph.setdefault(f.origin, []).append(f)] for each flight in turn. *)
Definition build_graph (fs : list Flight) : Graph :=
  fold_left (fun graph f => <[origin f := outbound graph (origin f) ++ [f]]> graph)
            fs ∅.

(* ===================================================================== *)
(** ** The priority queue *)
(* ===================================================================== *)

(** [heapq] keeps a binary heap of tuples; all the searches observe of it
    is that [heappop] removes a least tuple in Python's tuple order
    (component by component, strings by code point).  The queue is kept
    here as a list in that order: [heappush] inserts in place and
    [heappop] takes the head. *)

Definition entry2_leb (x y : Z * string) : bool :=
  (x.1 <? y.1) || ((x.1 =? y.1) && String.leb x.2 y.2).

Definition entry3_leb (x y : Z * Z * string) : bool :=
  (x.1.1 <? y.1.1)
  || ((x.1.1 =? y.1.1)
      && ((x.1.2 <? y.1.2) || ((x.1.2 =? y.1.2) && String.leb x.2 y.2))).

Fixpoint heappush {A} (leb : A -> A -> bool) (pq : list A) (x : A) : list A :=
  match pq with
  | [] => [x]
  | y :: rest => if leb x y then x :: pq else y :: heappush leb rest x
  end.

(* ===================================================================== *)
(** ** Earliest-arrival search *)
(* ===================================================================== *)

Record EState := mkEState {
  e_pq : list (Z * string);
  e_best_time : gmap string Z;
  e_prev : gmap string Flight
}.

Section Earliest.
Variable graph : Graph.
Variables start dst : string.
Variable earliest_departure : Z.

(** One pass of the body of [for fl in graph.get(airport, [])]. *)
Definition e_relax (time : Z) (airport : string) (st : EState) (fl : Flight)
  : EState :=
  let min_dep := if String.eqb airport start then earliest_departure
                 else time + MIN_LAYOVER_MINUTES in
  if depart fl <? min_dep then st
  else
    let improve :=
      match e_best_time st !! dest fl with
      | None => true
      | Some b => arrive fl <? b
      end in
    if improve then
      mkEState (heappush entry2_leb (e_pq st) (arrive fl, dest fl))
               (<[dest fl := arrive fl]> (e_best_time st))
               (<[dest fl := fl]> (e_prev st))
    else st.

Definition e_expand (time : Z) (airport : string) (st : EState) : EState :=
  fold_left (e_relax time airport) (outbound graph airport) st.

(** [while pq: ...]; the state returned is the one the loop leaves. *)
Fixpoint e_loop (fuel : nat) (st : EState) : option EState :=
  match e_pq st with
  | [] => Some st
  | (time, airport) :: rest =>
      let st' := mkEState rest (e_best_time st) (e_prev st) in
      if String.eqb airport dst then Some st'
      else match fuel with
           | O => None
           | S n => e_loop n (e_expand time airport st')
           end
  end.

Definition e_init : EState :=
  mkEState [(earliest_departure, start)]
           {[ start := earliest_departure ]}
           ∅.

(** The backward walk; flights are collected in the order in which
    [flights.append(fl)] adds them.  [Ret None] is the early
    [return None]. *)
Fixpoint e_walk (fuel : nat) (prev : gmap string Flight) (cur : string)
  : result (option (list Flight)) :=
  if String.eqb cur start then Ret (Some [])
  else match fuel with
       | O => OutOfFuel
       | S n =>
           match prev !! cur with
           | None => Ret None
           | Some fl =>
               match e_walk n prev (origin fl) with
               | Ret (Some l) => Ret (Some (fl :: l))
               | r => r
               end
           end
       end.

Definition find_earliest_itinerary (fuel : nat) : result (option Itinerary) :=
  match e_loop fuel e_init with
  | None => OutOfFuel
  | Some st =>
      if bool_decide (e_prev st !! dst = None) && negb (String.eqb start dst)
      then Ret None
      else
        r ← e_walk fuel (e_prev st) dst;
        Ret (option_map (fun l => mkItinerary (rev l)) r)
  end.
End Earliest.

(* ===================================================================== *)
(** ** Cheapest-fare search *)
(* ===================================================================== *)

Record CState := mkCState {
  c_pq : list (Z * Z * string);
  c_best_cost : gmap string Z;
  c_best_time : gmap string Z;
  c_prev : gmap string Flight
}.

Section Cheapest.
Variable graph : Graph.
Variables start dst : string.
Variable earliest_departure : Z.
Variable cabin : Cabin.

Definition c_relax (cost time : Z) (airport : string) (st : CState)
  (fl : Flight) : CState :=
  let min_dep := if String.eqb airport start then earliest_departure
                 else time + MIN_LAYOVER_MINUTES in
  if depart fl <? min_dep then st
  else
    let new_cost := cost + price_for fl cabin in
    let improve :=
      match c_best_cost st !! dest fl with
      | None => true
      | Some b => new_cost <? b
      end in
    if improve then
      mkCState (heappush entry3_leb (c_pq st) (new_cost, arrive fl, dest fl))
               (<[dest fl := new_cost]> (c_best_cost st))
               (<[dest fl := arrive fl]> (c_best_time st))
               (<[dest fl := fl]> (c_prev st))
    else st.

Definition c_expand (cost time : Z) (airport : string) (st : CState)
  : CState :=
  fold_left (c_relax cost time airport) (outbound graph airport) st.

Fixpoint c_loop (fuel : nat) (st : CState) : option CState :=
  match c_pq st with
  | [] => Some st
  | (cost, time, airport) :: rest =>
      let st' := mkCState rest (c_best_cost st) (c_best_time st) (c_prev st) in
      if String.eqb airport dst then Some st'
      else match fuel with
           | O => None
           | S n => c_loop n (c_expand cost time airport st')
           end
  end.

Definition c_init : CState :=
  mkCState [(0, earliest_departure, start)]
           {[ start := 0 ]}
           {[ start := earliest_departure ]}
           ∅.

(** The backward walk of the cheapest search indexes [prev[cur]]
    directly, so a missing key raises [KeyError]. *)
Fixpoint c_walk (fuel : nat) (prev : gmap string Flight) (cur : string)
  : result (list Flight) :=
  if String.eqb cur start then Ret []
  else match fuel with
       | O => OutOfFuel
       | S n =>
           match prev !! cur with
           | None => Raise (KeyError cur)
           | Some fl =>
               l ← c_walk n prev (origin fl);
               Ret (fl :: l)
           end
       end.

Definition find_cheapest_itinerary (fuel : nat) : result (option Itinerary) :=
  match c_loop fuel c_init with
  | None => OutOfFuel
  | Some st =>
      if bool_decide (c_prev st !! dst = None) then Ret None
      else
        l ← c_walk fuel (c_prev st) dst;
        Ret (Some (mkItinerary (rev l)))
  end.
End Cheapest.

(* ===================================================================== *)
(** ** Feasible paths *)
(* ===================================================================== *)

(** [path_ok graph cur thr p]: [p] is a chain of flights of the graph that
    leaves [cur], whose first flight departs no earlier than [thr] and
    whose every later flight departs at least the minimum layover after
    the arrival of the flight before it. *)
Fixpoint path_ok (graph : Graph) (cur : string) (thr : Z) (p : list Flight)
  : Prop :=
  match p with
  | [] => True
  | f :: p' =>
      origin f = cur /\ In f (outbound graph cur) /\ thr <= depart f
      /\ path_ok graph (dest f) (arrive f + MIN_LAYOVER_MINUTES) p'
  end.

(** A feasible path from [start] to [dst]: a non-empty chain that ends
    at [dst]. *)
Definition feasible_path (graph : Graph) (start dst : string)
  (earliest_departure : Z) (p : list Flight) : Prop :=
  path_ok graph start earliest_departure p
  /\ option_map dest (last p) = Some dst.

Definition path_price (p : list Flight) (cabin : Cabin) : Z :=
  total_price (mkItinerary p) cabin.

Definition path_arrival (p : list Flight) : option Z :=
  arrive_time (mkItinerary p).

(** The layover rule on an itinerary, as a list property. *)
Fixpoint layovers_ok (p : list Flight) : Prop :=
  match p with
  | f :: ((f' :: _) as p') =>
      arrive f + MIN_LAYOVER_MINUTES <= depart f' /\ layovers_ok p'
  | _ => True
  end.

(** The chain invariant on an itinerary. *)
Fixpoint chained (p : list Flight) : Prop :=
  match p with
  | f :: ((f' :: _) as p') => dest f = origin f' /\ chained p'
  | _ => True
  end.

(** The shape of the graphs that [build_graph] makes: every flight is
    listed under its own origin. *)
Definition graph_keyed (graph : Graph) : Prop :=
  forall k fs f, graph !! k = Some fs -> In f fs -> origin f = k.

(** The loader's ordering check, as a property of a graph. *)
Definition times_valid (graph : Graph) : Prop :=
  forall k fs f, graph !! k = Some fs -> In f fs -> depart f < arrive f.

Definition prices_nonneg (graph : Graph) (cabin : Cabin) : Prop :=
  forall k fs f, graph !! k = Some fs -> In f fs -> 0 <= price_for f cabin.

Module Scenario.
Definition ab := mkFlight "A" "B" "F1" 480 540 100 200 300.
Definition bc := mkFlight "B" "C" "F2" 600 660 50 80 120.
Definition bc_early := mkFlight "B" "C" "F3" 570 630 50 80 120.
Definition two_legs := [ab; bc].
Definition short_layover := [ab; bc_early].
End Scenario.

Module Overtaken.
(** Two ways from A to B, a dear early one and a cheap late one; only
    the early one connects to the flight from B to C. *)
Definition ab_dear := mkFlight "A" "B" "X1" 480 540 100 100 100.
Definition ab_cheap := mkFlight "A" "B" "X2" 600 720 10 10 10.
Definition bc := mkFlight "B" "C" "X3" 600 660 10 10 10.
Definition ac := mkFlight "A" "C" "X4" 480 600 500 500 500.

Definition schedule1 := [ab_cheap; ab_dear; ac; bc].
Definition schedule2 := [ab_dear; ab_cheap; bc].
Definition g1 := build_graph schedule1.
Definition g2 := build_graph schedule2.
End Overtaken.

(** What the loader checks of a flight's instants. *)
Definition times_checked (f : Flight) : Prop :=
  0 <= depart f < 1440 /\ 0 <= arrive f < 1440 /\ depart f < arrive f.

(** A validated flight record in the sense of the specification. *)
Definition validated (f : Flight) : Prop :=
  times_checked f /\ 0 <= economy f /\ 0 <= business f /\ 0 <= first f.

Module NegativeFare.
Definition line := "A B N1 08:00 09:00 -5 0 0".
Definition file :=
  mkFlightFile "flights.txt" ".txt" [line] (mkCsvTable [] []).
Definition loaded := mkFlight "A" "B" "N1" 480 540 (-5) 0 0.
End NegativeFare.

(** The shape of a path read forwards: it leaves [s], every flight
    starts where the one before it ended, and it ends at [d]. *)
Fixpoint path_shape (s d : string) (p : list Flight) : Prop :=
  match p with
  | [] => s = d
  | f :: p' => origin f = s /\ path_shape (dest f) d p'
  end.

(** The shape of the list that the backward walk collects from [cur]. *)
Fixpoint walk_shape (start cur : string) (l : list Flight) : Prop :=
  match l with
  | [] => cur = start
  | f :: l' => dest f = cur /\ walk_shape start (origin f) l'
  end.

(** Every predecessor flight is recorded under its own destination. *)
Definition prev_by_dest (prev : gmap string Flight) : Prop :=
  forall x f, prev !! x = Some f -> dest f = x.

(** [reaches start prev x]: following predecessor flights backwards from
    [x] arrives at [start]. *)
Inductive reaches (start : string) (prev : gmap string Flight)
  : string -> Prop :=
| reaches_start : reaches start prev start
| reaches_step x f :
    prev !! x = Some f -> reaches start prev (origin f) -> reaches start prev x.

(** The bookkeeping of the cheapest search that keeps its predecessor map
    free of cycles: along a predecessor flight the recorded cost does not
    drop, queue entries are no cheaper than the recorded cost of their
    airport, and every airport with a recorded cost walks back to the
    start. *)
Record c_inv (start : string) (cabin : Cabin) (st : CState) : Prop := {
  ci_link : forall x f, c_prev st !! x = Some f ->
    exists c co, c_best_cost st !! x = Some c
                 /\ c_best_cost st !! origin f = Some co
                 /\ co + price_for f cabin <= c
                 /\ 0 <= price_for f cabin;
  ci_pq : forall c t a, In (c, t, a) (c_pq st) ->
    exists b, c_best_cost st !! a = Some b /\ b <= c;
  ci_nonneg : forall x c, c_best_cost st !! x = Some c -> 0 <= c;
  ci_reach : forall x, is_Some (c_best_cost st !! x) ->
    reaches start (c_prev st) x
}.

(** The same, while the flights out of the popped airport are being
    relaxed: the popped cost is no less than the airport's recorded one. *)
Definition c_inv_mid (start : string) (cabin : Cabin) (cost : Z)
  (airport : string) (st : CState) : Prop :=
  c_inv start cabin st
  /\ exists b, c_best_cost st !! airport = Some b /\ b <= cost.

(** All the flights of a graph, and the airports they arrive at. *)
Definition all_flights (graph : Graph) : list Flight :=
  concat (map snd (map_to_list graph)).

Definition arrival_airports (graph : Graph) : list string :=
  map dest (all_flights graph).

(** A flight can still improve the time of its destination. *)
Definition improvable (best_time : gmap string Z) (f : Flight) : nat :=
  match best_time !! dest f with
  | None => 1
  | Some b => if arrive f <? b then 1 else 0
  end.

(** The number of loop iterations that the earliest search has left at
    most: every queue entry is popped once, and every flight that can
    still improve a time adds at most one entry. *)
Definition e_potential (graph : Graph) (st : EState) : nat :=
  (2 * sum_list_with (improvable (e_best_time st)) (all_flights graph)
   + length (e_pq st))%nat.

(** The measure of the cheapest search: airports without a cost, the sum
    of the costs recorded, the length of the queue; it decreases in this
    order of importance. *)
Definition unset_count (best_cost : gmap string Z) (nodes : list string) : nat :=
  sum_list_with
    (fun y => match best_cost !! y with None => 1 | Some _ => 0 end)%nat nodes.

Definition cost_sum (best_cost : gmap string Z) (nodes : list string) : nat :=
  sum_list_with (fun y => Z.to_nat (default 0 (best_cost !! y))) nodes.

Definition c_measure (graph : Graph) (st : CState) : nat * nat * nat :=
  (unset_count (c_best_cost st) (arrival_airports graph),
   cost_sum (c_best_cost st) (arrival_airports graph),
   length (c_pq st)).

Definition lex3 (a b : nat * nat * nat) : Prop :=
  (a.1.1 < b.1.1
   \/ (a.1.1 = b.1.1
       /\ (a.1.2 < b.1.2 \/ (a.1.2 = b.1.2 /\ a.2 < b.2))))%nat.

(** The bookkeeping of the earliest search that makes its backward walk
    end: a predecessor flight carries the recorded time of its
    destination, leaves the start or an airport whose recorded time is
    strictly earlier, and no recorded time is before the earliest
    departure. *)
Record e_inv (start : string) (ed : Z) (st : EState) : Prop := {
  ei_sync : forall x f, e_prev st !! x = Some f ->
    e_best_time st !! x = Some (arrive f);
  ei_dom : forall x b, e_best_time st !! x = Some b ->
    x = start \/ is_Some (e_prev st !! x);
  ei_link : forall x f, e_prev st !! x = Some f ->
    origin f = start
    \/ exists b, e_best_time st !! origin f = Some b /\ b < arrive f;
  ei_pq : forall t a, In (t, a) (e_pq st) ->
    exists b, e_best_time st !! a = Some b /\ b <= t;
  ei_low : forall x b, e_best_time st !! x = Some b -> ed <= b
}.

Definition e_inv_mid (start : string) (ed : Z) (time : Z) (airport : string)
  (st : EState) : Prop :=
  e_inv start ed st
  /\ exists b, e_best_time st !! airport = Some b /\ b <= time.

(** An airport and an instant at which some feasible path from the start
    arrives there; the start is there at the earliest departure. *)
Definition arrives_at (graph : Graph) (start : string) (ed : Z)
  (a : string) (t : Z) : Prop :=
  (a = start /\ t = ed)
  \/ exists p, feasible_path graph start a ed p /\ path_arrival p = Some t.

(** Every queue entry and every predecessor flight of the earliest
    search comes from a feasible path. *)
Definition e_ghost (graph : Graph) (start : string) (ed : Z) (st : EState)
  : Prop :=
  (forall t a, In (t, a) (e_pq st) -> arrives_at graph start ed a t)
  /\ (forall x f, e_prev st !! x = Some f ->
        exists p, feasible_path graph start x ed p).

Definition c_ghost (graph : Graph) (start : string) (ed : Z) (st : CState)
  : Prop :=
  (forall c t a, In (c, t, a) (c_pq st) -> arrives_at graph start ed a t)
  /\ (forall x f, c_prev st !! x = Some f ->
        exists p, feasible_path graph start x ed p).

Module NegativeCycle.
(** Two flights with valid instants whose economy price is negative,
    as the loader lets them through; they form a round trip. *)
Definition ab := mkFlight "A" "B" "N1" 480 540 (-1) 0 0.
Definition ba := mkFlight "B" "A" "N2" 600 660 (-1) 0 0.
Definition schedule := [ab; ba].
Definition g := build_graph schedule.

(** The states of the cheapest search from A that the loop runs
    through: one queue entry, for A or for B, cheaper by more than the
    fare than the cost recorded at the other airport. *)
Definition spinning (st : CState) : Prop :=
  (exists c t, c_pq st = [(c, t, "A")]
     /\ (forall b, c_best_cost st !! "A" = Some b -> c - 2 < b)
     /\ (forall b, c_best_cost st !! "B" = Some b -> c - 1 < b))
  \/ (exists c, c_pq st = [(c, 540, "B")]
      /\ (forall b, c_best_cost st !! "B" = Some b -> c - 2 < b)
      /\ (forall b, c_best_cost st !! "A" = Some b -> c - 1 < b)).
End NegativeCycle.

Module TimeTravel.
(** Flights that arrive before they depart, which the loader rejects
    but the flight record admits. *)
Definition ab := mkFlight "A" "B" "T1" 0 300 1 1 1.
Definition bc := mkFlight "B" "C" "T2" 360 100 1 1 1.
Definition cb := mkFlight "C" "B" "T3" 160 50 1 1 1.
Definition bd := mkFlight "B" "D" "T4" 110 120 1 1 1.
Definition schedule := [ab; bc; bd; cb].
Definition g := build_graph schedule.

Definition ac := mkFlight "A" "C" "T5" 100 200 1 1 1.
Definition ab' := mkFlight "A" "B" "T6" 100 300 1 1 1.
Definition bc' := mkFlight "B" "C" "T7" 360 50 1 1 1.
Definition g' := build_graph [ac; ab'; bc'].
End TimeTravel.

Module Misfiled.
(** Graphs built by hand, in which a flight is listed under an airport
    that is not its origin; [build_graph] never produces them, the
    searches accept them. *)

(** A flight from X listed under A: the cheapest search reaches C through
    it and then looks for a predecessor of X. *)
Definition xc := mkFlight "X" "C" "M1" 0 10 1 1 1.
Definition g_key : Graph := {[ "A" := [xc] ]}.

(** A flight from B listed under A, together with a flight from A to B
    that lands after it has left. *)
Definition bc := mkFlight "B" "C" "M2" 0 10 1 1 1.
Definition ab := mkFlight "A" "B" "M3" 100 200 1 1 1.
Definition g_early : Graph := {[ "A" := [bc; ab] ]}.

(** A flight from C to C listed under A: the predecessor of C is C. *)
Definition cc := mkFlight "C" "C" "M4" 0 10 1 1 1.
Definition g_loop : Graph := {[ "A" := [cc] ]}.
End Misfiled.

(** The queue is in order of its first component. *)
Definition pq_sorted (pq : list (Z * string)) : Prop :=
  StronglySorted (fun x y => x.1 <= y.1) pq.

(** The departure threshold that the loop applies at [airport] when it
    pops the time [t] there. *)
Definition threshold (start : string) (ed : Z) (airport : string) (t : Z) : Z :=
  if String.eqb airport start then ed else t + MIN_LAYOVER_MINUTES.

(** The listed flights that may leave [y] at time [t] have been relaxed:
    their destinations have a recorded time no later than their
    arrival. *)
Definition relaxed_all (start : string) (ed : Z) (best : gmap string Z)
  (y : string) (t : Z) (fs : list Flight) : Prop :=
  forall f, In f fs -> threshold start ed y t <= depart f ->
    exists b, best !! dest f = Some b /\ b <= arrive f.

(** What the earliest search keeps true between two pops: the recorded
    time of an airport either waits in the queue or has had all the
    flights out of the airport relaxed with it. *)
Record e_opt (graph : Graph) (start dst : string) (ed : Z) (st : EState)
  : Prop := {
  eo_sync : forall x f, e_prev st !! x = Some f ->
    e_best_time st !! x = Some (arrive f);
  eo_pq : forall t a, In (t, a) (e_pq st) ->
    exists b, e_best_time st !! a = Some b /\ b <= t;
  eo_sorted : pq_sorted (e_pq st);
  eo_low : forall x b, e_best_time st !! x = Some b -> ed <= b;
  eo_start : exists b, e_best_time st !! start = Some b /\ b <= ed;
  eo_closed : forall y t, e_best_time st !! y = Some t ->
    In (t, y) (e_pq st)
    \/ (y <> dst
        /\ relaxed_all start ed (e_best_time st) y t (outbound graph y))
}.

(** The same inside the [for] loop over the flights out of the popped
    airport, of which [done] have been relaxed. *)
Record e_opt_mid (graph : Graph) (start dst : string) (ed : Z) (time : Z)
  (airport : string) (done : list Flight) (st : EState) : Prop := {
  em_sync : forall x f, e_prev st !! x = Some f ->
    e_best_time st !! x = Some (arrive f);
  em_pq : forall t a, In (t, a) (e_pq st) ->
    exists b, e_best_time st !! a = Some b /\ b <= t;
  em_sorted : pq_sorted (e_pq st);
  em_low : forall x b, e_best_time st !! x = Some b -> ed <= b;
  em_start : exists b, e_best_time st !! start = Some b /\ b <= ed;
  em_popped : exists b, e_best_time st !! airport = Some b /\ b <= time;
  em_closed : forall y t, e_best_time st !! y = Some t ->
    In (t, y) (e_pq st)
    \/ (y <> dst
        /\ relaxed_all start ed (e_best_time st) y t (outbound graph y))
    \/ (y = airport /\ t = time
        /\ relaxed_all start ed (e_best_time st) y t done)
}.

(** The bookkeeping of the earliest search that makes its itineraries
    feasible: a predecessor flight carries the recorded time of its
    destination, is a flight of the graph, and leaves the start no earlier
    than the earliest departure or another airport at least the minimum
    layover after that airport's recorded time. *)
Record e_feas (graph : Graph) (start : string) (ed : Z) (st : EState)
  : Prop := {
  ef_dest : prev_by_dest (e_prev st);
  ef_sync : forall x f, e_prev st !! x = Some f ->
    e_best_time st !! x = Some (arrive f);
  ef_link : forall x f, e_prev st !! x = Some f ->
    In f (outbound graph (origin f))
    /\ ((origin f = start /\ ed <= depart f)
        \/ (origin f <> start
            /\ exists b, e_best_time st !! origin f = Some b
                         /\ b + MIN_LAYOVER_MINUTES <= depart f));
  ef_pq : forall t a, In (t, a) (e_pq st) ->
    exists b, e_best_time st !! a = Some b /\ b <= t
}.

Definition e_feas_mid (graph : Graph) (start : string) (ed : Z) (time : Z)
  (airport : string) (st : EState) : Prop :=
  e_feas graph start ed st
  /\ exists b, e_best_time st !! airport = Some b /\ b <= time.

(* ===================================================================== *)
(** ** Formatting and the command line *)
(* ===================================================================== *)

(** [f"{n:02d}"]: at least two characters, the sign counted, zeros in
    front. *)
Definition pad2 (n : Z) : string :=
  if n <? 0 then pretty n
  else if n <? 10 then "0" +:+ pretty n
  else pretty n.

(** [//] and [%] round towards minus infinity, as [Z.div] and [Z.modulo]
    do for a positive divisor. *)
Definition format_time (minutes : Z) : string :=
  let h := minutes / 60 in
  let m := minutes mod 60 in
  pad2 h +:+ ":" +:+ pad2 m.

(** [format_time] applied to an optional instant: [None // 60] raises
    [TypeError]. *)
Definition format_time_of (minutes : option Z) : result string :=
  match minutes with
  | Some m => Ret (format_time m)
  | None => Raise TypeError
  end.

Record ComparisonRow := mkComparisonRow {
  row_mode : string;
  row_cabin : option Cabin;
  row_itinerary : option Itinerary;
  row_note : string
}.

(** The strings of the [Cabin] literal. *)
Definition cabin_name (cabin : Cabin) : string :=
  match cabin with
  | economy_cabin => "economy"
  | business_cabin => "business"
  | first_cabin => "first"
  end.

(** [cabin.capitalize()] *)
Definition cabin_capitalized (cabin : Cabin) : string :=
  match cabin with
  | economy_cabin => "Economy"
  | business_cabin => "Business"
  | first_cabin => "First"
  end.

Definition newline : string := String (ascii_of_nat 10) EmptyString.

Fixpoint repeat_string (s : string) (n : nat) : string :=
  match n with
  | O => ""
  | S n => s +:+ repeat_string s n
  end.

(** The four cells that depend on the itinerary.  [if r.itinerary] holds
    for every itinerary object, also for one without flights. *)
Definition row_cells (r : ComparisonRow)
  : result (string * string * string * string) :=
  match row_itinerary r with
  | Some it =>
      dep ← format_time_of (depart_time it);
      arr ← format_time_of (arrive_time it);
      let stops := pretty (num_stops it) in
      let price := match row_cabin r with
                   | Some cabin => pretty (total_price it cabin)
                   | None => ""
                   end in
      Ret (dep, arr, stops, price)
  | None => Ret ("N/A", "N/A", "N/A", "N/A")
  end.

Definition format_row (r : ComparisonRow) : result string :=
  cells ← row_cells r;
  let '(dep, arr, stops, price) := cells in
  Ret (row_mode r +:+ " | "
       +:+ match row_cabin r with Some c => cabin_name c | None => "" end
       +:+ " | " +:+ dep +:+ " | " +:+ arr +:+ " | " +:+ stops +:+ " | "
       +:+ price +:+ " | " +:+ row_note r).

Fixpoint format_rows (rows : list ComparisonRow) (lines : list string)
  : result (list string) :=
  match rows with
  | [] => Ret lines
  | r :: rest =>
      line ← format_row r;
      format_rows rest (lines ++ [line])
  end.

Definition format_comparison_table (origin dest : string)
  (earliest_departure : Z) (rows : list ComparisonRow) : result string :=
  lines ← format_rows rows
    ["Comparison for " +:+ origin +:+ " â†’ " +:+ dest;
     "Mode | Cabin | Dep | Arr | Stops | Total Price | Notes";
     repeat_string "-" 70];
  Ret (String.concat newline lines).

(** The parsed command line of [compare]; the flight file stands for the
    path and what is read at it. *)
Record Args := mkArgs {
  flight_file : FlightFile;
  arg_origin : string;
  arg_dest : string;
  departure_time : string
}.

(** One pass of [for cabin in ("economy", "business", "first")]. *)
Definition cheapest_row (graph : Graph) (args : Args) (earliest : Z)
  (fuel : nat) (cabin : Cabin) : result ComparisonRow :=
  itin ← find_cheapest_itinerary graph (arg_origin args) (arg_dest args)
           earliest cabin fuel;
  Ret (mkComparisonRow
         ("Cheapest (" +:+ cabin_capitalized cabin +:+ ")")
         (Some cabin) itin
         (match itin with Some _ => "" | None => "no valid itinerary" end)).

(** [run_compare]; the value returned is the text that is printed. *)
Definition run_compare (fuel : nat) (args : Args) : result string :=
  earliest ← parse_time (departure_time args);
  flights ← load_flights (flight_file args);
  let graph := build_graph flights in
  e ← find_earliest_itinerary graph (arg_origin args) (arg_dest args)
        earliest fuel;
  let row0 := mkComparisonRow "Earliest arrival" None e "" in
  row1 ← cheapest_row graph args earliest fuel economy_cabin;
  row2 ← cheapest_row graph args earliest fuel business_cabin;
  row3 ← cheapest_row graph args earliest fuel first_cabin;
  format_comparison_table (arg_origin args) (arg_dest args) earliest
    [row0; row1; row2; row3].

(** The flights that the lines of a text file stand for, in order. *)
Definition line_flights (lines : list string) : list Flight :=
  omap (fun line => match parse_flight_line_txt line with
                    | Ret o => o
                    | _ => None
                    end) lines.

(** The cheapest search's record of where its predecessor flights come
    from. *)
Definition c_from_graph (graph : Graph) (start : string) (ed : Z)
  (st : CState) : Prop :=
  forall x f, c_prev st !! x = Some f ->
    In f (outbound graph (origin f)) /\ (origin f = start -> ed <= depart f).

Module Demo.
Definition lines : list string :=
  ["# morning"; ""; "A B F1 08:00 09:00 100 200 300";
   "B C F2 10:00 11:00 50 80 120"].
Definition file := mkFlightFile "demo.txt" ".txt" lines (mkCsvTable [] []).
Definition row : string -> string :=
  fun key =>
    default "" (list_to_map (M := gmap string string)
                  [("origin", "A"); ("dest", "B"); ("flight_number", "F1");
                   ("depart", "08:00"); ("arrive", "09:00");
                   ("economy", "100"); ("business", "200");
                   ("first", "300")] !! key).
End Demo.

(* ===================================================================== *)
(** ** Scenarios of the specification *)
(* ===================================================================== *)

Module ScenarioFacts.
Import Scenario.

Example earliest_two_legs :
  find_earliest_itinerary (build_graph [ab; bc]) "A" "C" 420 10
  = Ret (Some (mkItinerary [ab; bc])).
Proof. vm_compute. reflexivity. Qed.

Example cheapest_two_legs :
  (it ← find_cheapest_itinerary (build_graph [ab; bc]) "A" "C" 420
           economy_cabin 10;
   Ret (option_map (fun i => total_price i economy_cabin) it))
  = Ret (Some 150).
Proof. vm_compute. reflexivity. Qed.

Example short_layover_skipped :
  find_earliest_itinerary (build_graph [ab; bc_early]) "A" "C" 420 10 = Ret None
  /\ find_cheapest_itinerary (build_graph [ab; bc_early]) "A" "C" 420
       economy_cabin 10 = Ret None.
Proof. vm_compute. split; reflexivity. Qed.

Example parse_signed_and_grouped :
  parse_flight_line_txt "  A B X1 08:00 09:00 -5 1_0 +7 "
  = Ret (Some (mkFlight "A" "B" "X1" 480 540 (-5) 10 7)).
Proof. vm_compute. reflexivity. Qed.
End ScenarioFacts.

(* ===================================================================== *)
(** ** The loader *)
(* ===================================================================== *)

Lemma parse_time_range s t : parse_time s = Ret t -> 0 <= t < 1440.
Proof.
  unfold parse_time.
  destruct (negb (contains_char ":" s)); [discriminate|].
  destruct (split_on ":" s) as [|h [|m [|? ?]]]; try discriminate.
  destruct (py_int h) as [hv|]; [|discriminate].
  destruct (py_int m) as [mv|]; [|discriminate].
  destruct (negb _) eqn:E; [discriminate|].
  intros [= <-]. apply negb_false_iff in E.
  repeat (apply andb_true_iff in E; destruct E as [E ?]). lia.
Qed.

Lemma bind_ret {A B} (r : result A) (k : A -> result B) b :
  r ≫= k = Ret b -> exists a, r = Ret a /\ k a = Ret b.
Proof. destruct r; simpl; intros; [eauto|discriminate..]. Qed.

Lemma parse_flight_line_txt_checked line f :
  parse_flight_line_txt line = Ret (Some f) -> times_checked f.
Proof.
  unfold parse_flight_line_txt.
  destruct (_ || _); [discriminate|].
  destruct (split_ws (strip line)) as [|o [|d [|num [|dep [|arr [|e [|b [|x [|? ?]]]]]]]]];
    try discriminate.
  intros H.
  apply bind_ret in H as (dep_m & Hd & H).
  apply bind_ret in H as (arr_m & Ha & H).
  destruct (arr_m <=? dep_m) eqn:E; [discriminate|].
  apply bind_ret in H as (ev & _ & H).
  apply bind_ret in H as (bv & _ & H).
  apply bind_ret in H as (fv & _ & H).
  injection H as <-.
  apply parse_time_range in Hd, Ha. apply Z.leb_gt in E.
  unfold times_checked; simpl. lia.
Qed.

Lemma load_lines_txt_checked path lines : forall i acc fs,
  Forall times_checked acc ->
  load_lines_txt path i lines acc = Ret fs -> Forall times_checked fs.
Proof.
  induction lines as [|line rest IH]; simpl; intros i acc fs Hacc H.
  - by injection H as <-.
  - destruct (parse_flight_line_txt line) as [[fl|]|[]|] eqn:E; try discriminate.
    + eapply IH; [|exact H]. apply Forall_app; split; [done|].
      constructor; [|constructor]. by eapply parse_flight_line_txt_checked.
    + by eapply IH.
Qed.

Lemma load_row_csv_checked row f : load_row_csv row = Ret f -> times_checked f.
Proof.
  unfold load_row_csv. intros H.
  apply bind_ret in H as (dep & Hd & H).
  apply bind_ret in H as (arr & Ha & H).
  destruct (arr <=? dep) eqn:E; [discriminate|].
  do 3 (apply bind_ret in H as (? & _ & H)).
  injection H as <-.
  apply parse_time_range in Hd, Ha. apply Z.leb_gt in E.
  unfold times_checked; simpl. lia.
Qed.

Lemma load_rows_csv_checked rs : forall acc fs,
  Forall times_checked acc ->
  load_rows_csv rs acc = Ret fs -> Forall times_checked fs.
Proof.
  induction rs as [|row rest IH]; simpl; intros acc fs Hacc H.
  - by injection H as <-.
  - apply bind_ret in H as (fl & Hfl & H).
    eapply IH; [|exact H]. apply Forall_app; split; [done|].
    constructor; [|constructor]. by eapply load_row_csv_checked.
Qed.

(** C7, as the code has it: every flight that [load_flights] produces,
    from a text file or from a CSV table, has its departure and arrival
    instants in [0, 1440) and arrives strictly after it departs; its three
    prices are whatever integers [int] read, of either sign. *)
Theorem load_flights_times_checked (file : FlightFile) (fs : list Flight) :
  load_flights file = Ret fs -> Forall times_checked fs.
Proof.
  unfold load_flights, load_flights_txt, load_flights_csv.
  destruct (String.eqb _ _).
  - destruct (negb _); [discriminate|]. by apply load_rows_csv_checked.
  - by apply load_lines_txt_checked.
Qed.

Lemma load_flights_times_checked_witness :
  load_flights NegativeFare.file = Ret [NegativeFare.loaded]
  /\ Forall times_checked [NegativeFare.loaded].
Proof.
  split; [vm_compute; reflexivity|].
  apply (load_flights_times_checked NegativeFare.file).
  vm_compute; reflexivity.
Defined.

(** C7 as the specification words it fails: the loader accepts a line
    whose economy price is negative and returns the flight. *)
Lemma load_flights_accepts_negative_price :
  ~ (forall file fs, load_flights file = Ret fs -> Forall validated fs).
Proof.
  intros H.
  specialize (H NegativeFare.file [NegativeFare.loaded]).
  assert (E : load_flights NegativeFare.file = Ret [NegativeFare.loaded])
    by (vm_compute; reflexivity).
  apply H in E. inversion E as [|? ? [_ [Hneg _]] _]; subst.
  simpl in Hneg. lia.
Qed.

(* ===================================================================== *)
(** ** Origin equal to destination *)
(* ===================================================================== *)

Lemma e_walk_at_start start fuel prev :
  e_walk start fuel prev start = Ret (Some []).
Proof. destruct fuel; simpl; by rewrite String.eqb_refl. Qed.

Lemma c_walk_at_start start fuel prev :
  c_walk start fuel prev start = Ret [].
Proof. destruct fuel; simpl; by rewrite String.eqb_refl. Qed.

Lemma e_loop_same_airport graph start ed fuel :
  e_loop graph start start ed fuel (e_init start ed)
  = Some (mkEState [] {[ start := ed ]} ∅).
Proof. destruct fuel; simpl; by rewrite String.eqb_refl. Qed.

Lemma c_loop_same_airport graph start ed cabin fuel :
  c_loop graph start start ed cabin fuel (c_init start ed)
  = Some (mkCState [] {[ start := 0 ]} {[ start := ed ]} ∅).
Proof. destruct fuel; simpl; by rewrite String.eqb_refl. Qed.

(** C8: with the start equal to the destination, the earliest-arrival
    search returns an itinerary with no flights, whose stop count is 0 and
    whose total price is 0 in every cabin. *)
Theorem earliest_same_airport (graph : Graph) (start : string)
  (earliest_departure : Z) (fuel : nat) :
  exists it,
    find_earliest_itinerary graph start start earliest_departure fuel
    = Ret (Some it)
    /\ flights it = []
    /\ num_stops it = 0
    /\ forall cabin, total_price it cabin = 0.
Proof.
  exists (mkItinerary []).
  unfold find_earliest_itinerary.
  rewrite e_loop_same_airport; simpl.
  rewrite String.eqb_refl, andb_false_r, e_walk_at_start. auto.
Qed.

(** C9: with the start equal to the destination, the cheapest-fare search
    returns no itinerary, for every cabin, while the earliest-arrival
    search returns the itinerary with no flights. *)
Theorem cheapest_same_airport (graph : Graph) (start : string)
  (earliest_departure : Z) (cabin : Cabin) (fuel : nat) :
  find_cheapest_itinerary graph start start earliest_departure cabin fuel
  = Ret None
  /\ find_earliest_itinerary graph start start earliest_departure fuel
     = Ret (Some (mkItinerary [])).
Proof.
  unfold find_cheapest_itinerary, find_earliest_itinerary.
  rewrite e_loop_same_airport, c_loop_same_airport; simpl.
  rewrite String.eqb_refl, andb_false_r, e_walk_at_start. auto.
Qed.

(* ===================================================================== *)
(** ** Reasoning principles for the two loops *)
(* ===================================================================== *)

Lemma fold_left_prefix_ind {A B} (f : A -> B -> A) (R : list B -> A -> Prop)
  (l : list B) (a0 : A) :
  R [] a0 ->
  (forall done x todo a, l = done ++ x :: todo -> R done a ->
                         R (done ++ [x]) (f a x)) ->
  R l (fold_left f l a0).
Proof.
  intros H0 Hstep.
  assert (G : forall todo done a, l = done ++ todo -> R done a ->
                                  R l (fold_left f todo a)).
  { induction todo as [|x todo IH]; intros done a El Ha; simpl.
    - rewrite app_nil_r in El. by subst.
    - apply (IH (done ++ [x])).
      + by rewrite <- app_assoc.
      + by eapply Hstep. }
  by apply (G l []).
Qed.

Lemma fold_left_inv {A B} (f : A -> B -> A) (R : A -> Prop) (l : list B)
  (a0 : A) :
  R a0 -> (forall x a, In x l -> R a -> R (f a x)) -> R (fold_left f l a0).
Proof.
  intros H0 Hstep.
  apply (fold_left_prefix_ind f (fun _ => R)); [done|].
  intros done x todo a -> Ha. apply Hstep; [|done].
  apply in_or_app. right. by left.
Qed.

Section EarliestLoop.
Variable graph : Graph.
Variables start dst : string.
Variable ed : Z.

Lemma e_relax_cases time airport st fl :
  e_relax start ed time airport st fl = st
  \/ ((if String.eqb airport start then ed else time + MIN_LAYOVER_MINUTES)
       <= depart fl
      /\ (e_best_time st !! dest fl = None
          \/ exists b, e_best_time st !! dest fl = Some b /\ arrive fl < b)
      /\ e_relax start ed time airport st fl
         = mkEState (heappush entry2_leb (e_pq st) (arrive fl, dest fl))
                    (<[dest fl := arrive fl]> (e_best_time st))
                    (<[dest fl := fl]> (e_prev st))).
Proof.
  unfold e_relax.
  destruct (depart fl <? _) eqn:Hd; [by left|].
  apply Z.ltb_ge in Hd.
  destruct (e_best_time st !! dest fl) as [b|] eqn:Hb.
  - destruct (arrive fl <? b) eqn:Ha; [|by left].
    apply Z.ltb_lt in Ha. right. repeat split; [done|right; eauto].
  - right. repeat split; [done|by left].
Qed.

(** What the skipped case tells: the flight leaves too early, or its
    destination already has a time that is no later. *)
Lemma e_relax_settles time airport st fl :
  (if String.eqb airport start then ed else time + MIN_LAYOVER_MINUTES)
    <= depart fl ->
  exists b, e_best_time (e_relax start ed time airport st fl) !! dest fl
            = Some b /\ b <= arrive fl.
Proof.
  intros Hd. unfold e_relax.
  destruct (depart fl <? _) eqn:Hd'; [apply Z.ltb_lt in Hd'; lia|].
  destruct (e_best_time st !! dest fl) as [b|] eqn:Hb; simpl.
  - destruct (arrive fl <? b) eqn:Ha; simpl.
    + rewrite lookup_insert_eq. eexists; split; [done|lia].
    + apply Z.ltb_ge in Ha. eauto.
  - rewrite lookup_insert_eq. eexists; split; [done|lia].
Qed.

Lemma e_loop_ind (P Q : EState -> Prop) :
  (forall st, P st -> e_pq st = [] -> Q st) ->
  (forall st time rest, P st -> e_pq st = (time, dst) :: rest ->
     Q (mkEState rest (e_best_time st) (e_prev st))) ->
  (forall st time airport rest, P st -> e_pq st = (time, airport) :: rest ->
     airport <> dst ->
     P (e_expand graph start ed time airport
          (mkEState rest (e_best_time st) (e_prev st)))) ->
  forall fuel st st',
    P st -> e_loop graph start dst ed fuel st = Some st' -> Q st'.
Proof.
  intros Hempty Hbreak Hstep.
  induction fuel as [|n IH]; intros st st' HP; simpl;
    destruct (e_pq st) as [|[time airport] rest] eqn:Epq.
  - intros [= <-]. by apply Hempty.
  - destruct (String.eqb_spec airport dst) as [->|Hne]; [|discriminate].
    intros [= <-]. by eapply Hbreak.
  - intros [= <-]. by apply Hempty.
  - destruct (String.eqb_spec airport dst) as [->|Hne].
    + intros [= <-]. by eapply Hbreak.
    + apply IH. by eapply Hstep.
Qed.

Lemma e_relax_prev_by_dest time airport st fl :
  prev_by_dest (e_prev st) ->
  prev_by_dest (e_prev (e_relax start ed time airport st fl)).
Proof.
  intros H.
  destruct (e_relax_cases time airport st fl) as [->|(_ & _ & ->)]; [done|].
  simpl. intros x f. rewrite lookup_insert_Some.
  intros [[<- <-]|[_ Hx]]; [done|by apply H].
Qed.

Lemma e_loop_prev_by_dest fuel st st' :
  prev_by_dest (e_prev st) ->
  e_loop graph start dst ed fuel st = Some st' ->
  prev_by_dest (e_prev st').
Proof.
  apply (e_loop_ind (fun s => prev_by_dest (e_prev s))
                    (fun s => prev_by_dest (e_prev s))); try done.
  intros s time airport rest Hs _ _. unfold e_expand.
  apply fold_left_inv; [done|].
  intros. by apply e_relax_prev_by_dest.
Qed.

Lemma e_walk_shape prev :
  prev_by_dest prev ->
  forall fuel cur l,
    e_walk start fuel prev cur = Ret (Some l) -> walk_shape start cur l.
Proof.
  intros Hprev. induction fuel as [|n IH]; intros cur l; simpl;
    destruct (String.eqb_spec cur start) as [->|Hne]; try discriminate.
  - by intros [= <-].
  - by intros [= <-].
  - destruct (prev !! cur) as [fl|] eqn:Hfl; [|discriminate].
    destruct (e_walk start n prev (origin fl)) as [[l'|]| |] eqn:Hw;
      try discriminate.
    intros [= <-]. simpl. split; [by apply Hprev|by apply IH].
Qed.
End EarliestLoop.

Section CheapestLoop.
Variable graph : Graph.
Variables start dst : string.
Variable ed : Z.
Variable cabin : Cabin.

Lemma c_relax_cases cost time airport st fl :
  c_relax start ed cabin cost time airport st fl = st
  \/ ((if String.eqb airport start then ed else time + MIN_LAYOVER_MINUTES)
       <= depart fl
      /\ (c_best_cost st !! dest fl = None
          \/ exists b, c_best_cost st !! dest fl = Some b
                       /\ cost + price_for fl cabin < b)
      /\ c_relax start ed cabin cost time airport st fl
         = mkCState (heappush entry3_leb (c_pq st)
                       (cost + price_for fl cabin, arrive fl, dest fl))
                    (<[dest fl := cost + price_for fl cabin]> (c_best_cost st))
                    (<[dest fl := arrive fl]> (c_best_time st))
                    (<[dest fl := fl]> (c_prev st))).
Proof.
  unfold c_relax.
  destruct (depart fl <? _) eqn:Hd; [by left|].
  apply Z.ltb_ge in Hd.
  destruct (c_best_cost st !! dest fl) as [b|] eqn:Hb.
  - destruct (_ <? b) eqn:Ha; [|by left].
    apply Z.ltb_lt in Ha. right. repeat split; [done|right; eauto].
  - right. repeat split; [done|by left].
Qed.

Lemma c_loop_ind (P Q : CState -> Prop) :
  (forall st, P st -> c_pq st = [] -> Q st) ->
  (forall st cost time rest, P st -> c_pq st = (cost, time, dst) :: rest ->
     Q (mkCState rest (c_best_cost st) (c_best_time st) (c_prev st))) ->
  (forall st cost time airport rest, P st ->
     c_pq st = (cost, time, airport) :: rest ->
     airport <> dst ->
     P (c_expand graph start ed cabin cost time airport
          (mkCState rest (c_best_cost st) (c_best_time st) (c_prev st)))) ->
  forall fuel st st',
    P st -> c_loop graph start dst ed cabin fuel st = Some st' -> Q st'.
Proof.
  intros Hempty Hbreak Hstep.
  induction fuel as [|n IH]; intros st st' HP; simpl;
    destruct (c_pq st) as [|[[cost time] airport] rest] eqn:Epq.
  - intros [= <-]. by apply Hempty.
  - destruct (String.eqb_spec airport dst) as [->|Hne]; [|discriminate].
    intros [= <-]. by eapply Hbreak.
  - intros [= <-]. by apply Hempty.
  - destruct (String.eqb_spec airport dst) as [->|Hne].
    + intros [= <-]. by eapply Hbreak.
    + apply IH. by eapply Hstep.
Qed.

Lemma c_relax_prev_by_dest cost time airport st fl :
  prev_by_dest (c_prev st) ->
  prev_by_dest (c_prev (c_relax start ed cabin cost time airport st fl)).
Proof.
  intros H.
  destruct (c_relax_cases cost time airport st fl) as [->|(_ & _ & ->)];
    [done|].
  simpl. intros x f. rewrite lookup_insert_Some.
  intros [[<- <-]|[_ Hx]]; [done|by apply H].
Qed.

Lemma c_loop_prev_by_dest fuel st st' :
  prev_by_dest (c_prev st) ->
  c_loop graph start dst ed cabin fuel st = Some st' ->
  prev_by_dest (c_prev st').
Proof.
  apply (c_loop_ind (fun s => prev_by_dest (c_prev s))
                    (fun s => prev_by_dest (c_prev s))); try done.
  intros s cost time airport rest Hs _ _. unfold c_expand.
  apply fold_left_inv; [done|].
  intros. by apply c_relax_prev_by_dest.
Qed.

Lemma c_walk_shape prev :
  prev_by_dest prev ->
  forall fuel cur l,
    c_walk start fuel prev cur = Ret l -> walk_shape start cur l.
Proof.
  intros Hprev. induction fuel as [|n IH]; intros cur l; simpl;
    destruct (String.eqb_spec cur start) as [->|Hne]; try discriminate.
  - by intros [= <-].
  - by intros [= <-].
  - destruct (prev !! cur) as [fl|] eqn:Hfl; [|discriminate].
    destruct (c_walk start n prev (origin fl)) as [l'| |] eqn:Hw;
      try discriminate.
    simpl. intros [= <-]. simpl. split; [by apply Hprev|by apply IH].
Qed.
End CheapestLoop.

(* ===================================================================== *)
(** ** The chain invariant of returned itineraries *)
(* ===================================================================== *)

Lemma path_shape_snoc s x p f :
  path_shape s x p -> origin f = x -> path_shape s (dest f) (p ++ [f]).
Proof.
  revert s. induction p as [|g p IH]; simpl; intros s.
  - intros -> ->. done.
  - intros [-> Hp] Hf. split; [done|]. by apply IH.
Qed.

Lemma walk_shape_rev start l : forall cur,
  walk_shape start cur l -> path_shape start cur (rev l).
Proof.
  induction l as [|f l IH]; simpl; intros cur.
  - by intros ->.
  - intros [<- Hl]. apply (path_shape_snoc _ (origin f)); [by apply IH|done].
Qed.

Lemma path_shape_chained p : forall s d,
  path_shape s d p ->
  chained p
  /\ (forall f, head p = Some f -> origin f = s)
  /\ (forall f, last p = Some f -> dest f = d).
Proof.
  induction p as [|f p IH]; simpl; intros s d.
  - intros _. repeat split; intros; discriminate.
  - intros [<- Hp]. destruct (IH _ _ Hp) as (Hc & Hh & Hl).
    destruct p as [|f' p'].
    + simpl in Hp. subst d. repeat split; by intros ? [= <-].
    + repeat split.
      * symmetry. by apply Hh.
      * done.
      * by intros ? [= <-].
      * intros g Hg. apply Hl. exact Hg.
Qed.

(** C4: in every itinerary that either search returns, each flight starts
    where the flight before it ended, the first flight (when there is one)
    leaves the start argument and the last one reaches the destination
    argument. *)
Theorem returned_itinerary_chains (graph : Graph) (start dst : string)
  (earliest_departure : Z) (cabin : Cabin) (fuel : nat) (it : Itinerary) :
  find_earliest_itinerary graph start dst earliest_departure fuel
    = Ret (Some it)
  \/ find_cheapest_itinerary graph start dst earliest_departure cabin fuel
    = Ret (Some it) ->
  chained (flights it)
  /\ (forall f, head (flights it) = Some f -> origin f = start)
  /\ (forall f, last (flights it) = Some f -> dest f = dst).
Proof.
  intros [H|H].
  - unfold find_earliest_itinerary in H.
    destruct (e_loop _ _ _ _ _ _) as [st|] eqn:Hloop; [|discriminate].
    destruct (_ && _); [discriminate|].
    apply bind_ret in H as ([l|] & Hw & [= <-]). simpl.
    apply (path_shape_chained _ start dst), walk_shape_rev.
    eapply e_walk_shape; [|exact Hw].
    eapply e_loop_prev_by_dest; [|exact Hloop].
    intros x f. simpl. by rewrite lookup_empty.
  - unfold find_cheapest_itinerary in H.
    destruct (c_loop _ _ _ _ _ _ _) as [st|] eqn:Hloop; [|discriminate].
    destruct (bool_decide _); [discriminate|].
    apply bind_ret in H as (l & Hw & [= <-]). simpl.
    apply (path_shape_chained _ start dst), walk_shape_rev.
    eapply c_walk_shape; [|exact Hw].
    eapply c_loop_prev_by_dest; [|exact Hloop].
    intros x f. simpl. by rewrite lookup_empty.
Qed.

(* ===================================================================== *)
(** ** The priority queue as a list *)
(* ===================================================================== *)

Lemma heappush_In {A} (leb : A -> A -> bool) pq x y :
  In y (heappush leb pq x) <-> y = x \/ In y pq.
Proof.
  induction pq as [|z pq IH]; simpl.
  - intuition.
  - destruct (leb x z); simpl; [intuition|]. rewrite IH. intuition.
Qed.

Lemma heappush_length {A} (leb : A -> A -> bool) pq x :
  length (heappush leb pq x) = S (length pq).
Proof.
  induction pq as [|z pq IH]; simpl; [done|].
  destruct (leb x z); simpl; [done|]. by rewrite IH.
Qed.

(* ===================================================================== *)
(** ** The predecessor map of the cheapest search has no cycle *)
(* ===================================================================== *)

Lemma outbound_In graph k f :
  In f (outbound graph k) -> exists fs, graph !! k = Some fs /\ In f fs.
Proof.
  unfold outbound. destruct (graph !! k) as [fs|]; simpl; [eauto|done].
Qed.

Section CheapestInvariant.
Variable graph : Graph.
Variables start dst : string.
Variable ed : Z.
Variable cabin : Cabin.
Hypothesis Hkeyed : graph_keyed graph.
Hypothesis Hnonneg : prices_nonneg graph cabin.

Lemma reaches_insert_above (prev : gmap string Flight)
  (bc : gmap string Z) y fl :
  (forall x f, prev !! x = Some f ->
     exists c co, bc !! x = Some c /\ bc !! origin f = Some co
                  /\ co + price_for f cabin <= c
                  /\ 0 <= price_for f cabin) ->
  forall x, reaches start prev x ->
  forall cx, bc !! x = Some cx ->
  (forall b, bc !! y = Some b -> cx < b) ->
  reaches start (<[y := fl]> prev) x.
Proof.
  intros Hlink x Hx.
  induction Hx as [|x f Hf Hr IH]; intros cx Hcx Hy; [constructor|].
  destruct (decide (y = x)) as [->|Hne].
  { apply Hy in Hcx. lia. }
  destruct (Hlink _ _ Hf) as (c & co & Hc & Hco & Hle & Hp).
  assert (c = cx) as -> by congruence.
  eapply reaches_step; [by rewrite lookup_insert_ne|].
  apply (IH co); [done|].
  intros b Hb. apply Hy in Hb. lia.
Qed.

Lemma reaches_insert_other (prev : gmap string Flight) y fl :
  reaches start (<[y := fl]> prev) y ->
  forall x, reaches start prev x -> reaches start (<[y := fl]> prev) x.
Proof.
  intros Hy x Hx. induction Hx as [|x f Hf Hr IH]; [constructor|].
  destruct (decide (y = x)) as [->|Hne]; [done|].
  eapply reaches_step; [by rewrite lookup_insert_ne|done].
Qed.

Lemma c_relax_inv_mid cost time airport st fl :
  In fl (outbound graph airport) ->
  c_inv_mid start cabin cost airport st ->
  c_inv_mid start cabin cost airport
    (c_relax start ed cabin cost time airport st fl).
Proof.
  intros Hin [Hinv (ba & Hba & Hle)].
  destruct (c_relax_cases start ed cabin cost time airport st fl)
    as [->|(_ & Himp & ->)]; [by split; eauto|].
  apply outbound_In in Hin as (fs & Hfs & Hin).
  pose proof (Hkeyed _ _ _ Hfs Hin) as Horg.
  pose proof (Hnonneg _ _ _ Hfs Hin) as Hp.
  destruct Hinv as [Hlink Hpq Hnn Hreach].
  set (nc := cost + price_for fl cabin) in *.
  assert (Hlow : forall b, c_best_cost st !! dest fl = Some b -> nc < b).
  { intros b Hb. destruct Himp as [Hn|(b' & Hb' & Hlt)]; congruence. }
  assert (Hne : airport <> dest fl).
  { intros ->. apply Hlow in Hba. lia. }
  assert (Hra : reaches start (<[dest fl := fl]> (c_prev st)) airport).
  { eapply (reaches_insert_above _ (c_best_cost st)); eauto.
    intros b Hb. apply Hlow in Hb. lia. }
  assert (Hry : reaches start (<[dest fl := fl]> (c_prev st)) (dest fl)).
  { eapply reaches_step; [apply lookup_insert_eq|by rewrite Horg]. }
  split; [split; simpl|simpl].
  - intros x f. rewrite lookup_insert_Some.
    intros [[<- <-]|[Hx Hf]].
    + exists nc, ba. rewrite lookup_insert_eq, Horg, lookup_insert_ne by done.
      repeat split; [done|lia|done].
    + destruct (Hlink _ _ Hf) as (c & co & Hc & Hco & Hcle & Hfp).
      rewrite lookup_insert_ne by done.
      destruct (decide (dest fl = origin f)) as [E|E].
      * exists c, nc. rewrite <- E, lookup_insert_eq.
        rewrite <- E in Hco. apply Hlow in Hco.
        repeat split; [done|lia|done].
      * exists c, co. rewrite lookup_insert_ne by done. done.
  - intros c t a. rewrite heappush_In.
    intros [[= -> -> ->]|Hin'].
    + exists nc. rewrite lookup_insert_eq. split; [done|lia].
    + destruct (Hpq _ _ _ Hin') as (b & Hb & Hbc).
      destruct (decide (dest fl = a)) as [<-|E].
      * exists nc. rewrite lookup_insert_eq. apply Hlow in Hb.
        split; [done|lia].
      * exists b. by rewrite lookup_insert_ne.
  - intros x c. rewrite lookup_insert_Some.
    intros [[_ <-]|[_ Hx]]; [|by eapply Hnn].
    apply Hnn in Hba. lia.
  - intros x. destruct (decide (dest fl = x)) as [<-|E]; [done|].
    rewrite lookup_insert_ne by done. intros Hx.
    apply reaches_insert_other; [done|by apply Hreach].
  - exists ba. by rewrite lookup_insert_ne.
Qed.

Lemma c_expand_inv cost time airport rest st :
  c_inv start cabin st ->
  c_pq st = (cost, time, airport) :: rest ->
  c_inv start cabin
    (c_expand graph start ed cabin cost time airport
       (mkCState rest (c_best_cost st) (c_best_time st) (c_prev st))).
Proof.
  intros Hinv Epq.
  assert (Hmid : c_inv_mid start cabin cost airport
            (mkCState rest (c_best_cost st) (c_best_time st) (c_prev st))).
  { destruct Hinv as [Hlink Hpq Hnn Hreach]. split; [split; simpl; try done|].
    - intros c t a Hin. apply (Hpq c t a). rewrite Epq. by right.
    - simpl. apply (Hpq cost time airport). rewrite Epq. by left. }
  unfold c_expand.
  cut (c_inv_mid start cabin cost airport
         (fold_left (c_relax start ed cabin cost time airport)
            (outbound graph airport)
            (mkCState rest (c_best_cost st) (c_best_time st) (c_prev st)))).
  { by intros [? _]. }
  apply (fold_left_inv _ (c_inv_mid start cabin cost airport)); [done|].
  intros fl st' Hin Hst'. by apply c_relax_inv_mid.
Qed.

Lemma c_init_inv : c_inv start cabin (c_init start ed).
Proof.
  split; simpl.
  - intros x f. by rewrite lookup_empty.
  - intros c t a [[= <- <- <-]|[]]. exists 0.
    by rewrite lookup_singleton_eq.
  - intros x c. rewrite lookup_singleton_Some. intros [_ <-]. done.
  - intros x [c Hc]. apply lookup_singleton_Some in Hc as [<- _].
    constructor.
Qed.

Lemma c_inv_drop_pq st rest :
  c_inv start cabin st -> (forall e, In e rest -> In e (c_pq st)) ->
  c_inv start cabin
    (mkCState rest (c_best_cost st) (c_best_time st) (c_prev st)).
Proof.
  intros [Hlink Hpq Hnn Hreach] Hsub. split; simpl; try done.
  intros c t a Hin. by apply (Hpq c t a), Hsub.
Qed.

Lemma c_loop_inv fuel st st' :
  c_inv start cabin st ->
  c_loop graph start dst ed cabin fuel st = Some st' ->
  c_inv start cabin st'.
Proof.
  apply (c_loop_ind graph start dst ed cabin
           (c_inv start cabin) (c_inv start cabin)).
  - done.
  - intros s cost time rest Hs Epq. apply c_inv_drop_pq; [done|].
    intros e He. rewrite Epq. by right.
  - intros s cost time airport rest Hs Epq _. by apply c_expand_inv.
Qed.

Lemma c_walk_reaches prev x :
  reaches start prev x ->
  exists n l, forall k, (n <= k)%nat -> c_walk start k prev x = Ret l.
Proof.
  induction 1 as [|x f Hf Hr (n & l & IH)].
  - exists O, []. intros k _. apply c_walk_at_start.
  - destruct (String.eqb_spec x start) as [->|Hne].
    + exists O, []. intros k _. apply c_walk_at_start.
    + exists (S n), (f :: l). intros [|k] Hk; [lia|]. simpl.
      apply String.eqb_neq in Hne. rewrite Hne, Hf, IH by lia. done.
Qed.
End CheapestInvariant.

(* ===================================================================== *)
(** ** Termination of the queue loops *)
(* ===================================================================== *)

Lemma sum_list_with_le {A} (f g : A -> nat) l :
  (forall x, In x l -> (f x <= g x)%nat) ->
  (sum_list_with f l <= sum_list_with g l)%nat.
Proof.
  induction l as [|x l IH]; simpl; intros H; [lia|].
  pose proof (H x (or_introl eq_refl)).
  assert (sum_list_with f l <= sum_list_with g l)%nat by (apply IH; auto).
  lia.
Qed.

Lemma sum_list_with_lt {A} (f g : A -> nat) l y :
  (forall x, In x l -> (f x <= g x)%nat) ->
  In y l -> (f y < g y)%nat ->
  (sum_list_with f l < sum_list_with g l)%nat.
Proof.
  induction l as [|x l IH]; simpl; intros H Hy Hlt; [done|].
  pose proof (H x (or_introl eq_refl)).
  assert (sum_list_with f l <= sum_list_with g l)%nat
    by (apply sum_list_with_le; auto).
  destruct Hy as [->|Hy]; [lia|].
  assert (sum_list_with f l < sum_list_with g l)%nat by (apply IH; auto).
  lia.
Qed.

Lemma sum_list_with_eq {A} (f g : A -> nat) l :
  (forall x, In x l -> f x = g x) ->
  sum_list_with f l = sum_list_with g l.
Proof.
  induction l as [|x l IH]; simpl; intros H; [done|].
  rewrite (H x (or_introl eq_refl)), IH; auto.
Qed.

Lemma outbound_all_flights graph k f :
  In f (outbound graph k) -> In f (all_flights graph).
Proof.
  intros (fs & Hfs & Hin)%outbound_In.
  unfold all_flights. apply in_concat. exists fs. split; [|done].
  apply in_map_iff. exists (k, fs). split; [done|].
  apply list_elem_of_In, elem_of_map_to_list. done.
Qed.

Lemma lex3_wf : well_founded lex3.
Proof.
  intros [[u s] l]. revert s l.
  induction u as [u IHu] using lt_wf_ind. intros s.
  induction s as [s IHs] using lt_wf_ind. intros l.
  induction l as [l IHl] using lt_wf_ind.
  constructor. intros [[u' s'] l']. unfold lex3; simpl.
  intros [Hu|[-> [Hs|[-> Hl]]]]; auto.
Qed.

Lemma lex3_trans a b c : lex3 a b -> lex3 b c -> lex3 a c.
Proof. unfold lex3. lia. Qed.

Section EarliestTermination.
Variable graph : Graph.
Variables start dst : string.
Variable ed : Z.

Lemma e_relax_potential time airport st fl :
  In fl (outbound graph airport) ->
  (e_potential graph (e_relax start ed time airport st fl)
   <= e_potential graph st)%nat.
Proof.
  intros Hin%outbound_all_flights.
  destruct (e_relax_cases start ed time airport st fl)
    as [->|(_ & Himp & ->)]; [done|].
  unfold e_potential; simpl. rewrite heappush_length.
  cut (sum_list_with (improvable (<[dest fl := arrive fl]> (e_best_time st)))
         (all_flights graph)
       < sum_list_with (improvable (e_best_time st)) (all_flights graph))%nat;
    [lia|].
  apply (sum_list_with_lt _ _ _ fl); [|done|].
  - intros f _. unfold improvable.
    destruct (decide (dest fl = dest f)) as [E|E].
    + rewrite <- E, lookup_insert_eq.
      destruct (arrive f <? arrive fl) eqn:Hlt; [|destruct (_ !! _); [destruct (_ <? _)|]; lia].
      apply Z.ltb_lt in Hlt.
      destruct Himp as [->|(b & -> & Hb)]; [done|].
      destruct (arrive f <? b) eqn:Hfb; [done|]. apply Z.ltb_ge in Hfb. lia.
    + by rewrite lookup_insert_ne.
  - unfold improvable. rewrite lookup_insert_eq, Z.ltb_irrefl.
    destruct Himp as [->|(b & -> & Hb)]; [lia|].
    apply Z.ltb_lt in Hb. rewrite Hb. lia.
Qed.

Lemma e_expand_potential time airport st :
  (e_potential graph (e_expand graph start ed time airport st)
   <= e_potential graph st)%nat.
Proof.
  unfold e_expand.
  apply (fold_left_inv _
           (fun s => (e_potential graph s <= e_potential graph st)%nat));
    [done|].
  intros fl s Hin Hs.
  pose proof (e_relax_potential time airport s fl Hin). lia.
Qed.

Lemma e_loop_within_potential : forall fuel st,
  (e_potential graph st <= fuel)%nat ->
  exists st', e_loop graph start dst ed fuel st = Some st'.
Proof.
  induction fuel as [|n IH]; intros st Hpot; simpl;
    destruct (e_pq st) as [|[time airport] rest] eqn:Epq; eauto;
    destruct (String.eqb airport dst); eauto.
  - unfold e_potential in Hpot. rewrite Epq in Hpot. simpl in Hpot. lia.
  - apply IH.
    pose proof (e_expand_potential time airport
                  (mkEState rest (e_best_time st) (e_prev st))) as H.
    unfold e_potential in *. rewrite Epq in Hpot. simpl in *. lia.
Qed.

Lemma e_loop_mono : forall fuel st st',
  e_loop graph start dst ed fuel st = Some st' ->
  forall fuel', (fuel <= fuel')%nat ->
                e_loop graph start dst ed fuel' st = Some st'.
Proof.
  induction fuel as [|n IH]; intros st st' H [|m] Hle; try lia; try done;
    simpl in *; destruct (e_pq st) as [|[time airport] rest]; try done;
    destruct (String.eqb airport dst); try done.
  apply IH; [done|lia].
Qed.

(** The queue loop of the earliest search ends on every graph. *)
Lemma e_loop_terminates :
  exists n st, forall fuel, (n <= fuel)%nat ->
    e_loop graph start dst ed fuel (e_init start ed) = Some st.
Proof.
  exists (e_potential graph (e_init start ed)).
  destruct (e_loop_within_potential _ (e_init start ed) (le_n _))
    as [st Hst].
  exists st. intros fuel Hle. by eapply e_loop_mono.
Qed.
End EarliestTermination.

Section CheapestTermination.
Variable graph : Graph.
Variables start dst : string.
Variable ed : Z.
Variable cabin : Cabin.
Hypothesis Hkeyed : graph_keyed graph.
Hypothesis Hnonneg : prices_nonneg graph cabin.

Lemma c_relax_measure cost time airport st fl :
  In fl (outbound graph airport) ->
  c_inv_mid start cabin cost airport st ->
  lex3 (c_measure graph (c_relax start ed cabin cost time airport st fl))
       (c_measure graph st)
  \/ c_relax start ed cabin cost time airport st fl = st.
Proof.
  intros Hin [Hinv (ba & Hba & Hle)].
  destruct (c_relax_cases start ed cabin cost time airport st fl)
    as [->|(_ & Himp & ->)]; [by right|left].
  pose proof (outbound_all_flights _ _ _ Hin) as Hall.
  apply outbound_In in Hin as (fs & Hfs & Hin).
  pose proof (Hnonneg _ _ _ Hfs Hin) as Hp.
  pose proof (ci_nonneg _ _ _ Hinv _ _ Hba) as Hba0.
  assert (Hnode : In (dest fl) (arrival_airports graph)).
  { apply in_map_iff. eauto. }
  unfold lex3, c_measure, unset_count, cost_sum; simpl.
  set (nc := cost + price_for fl cabin) in *.
  destruct Himp as [Hnone|(b & Hb & Hlt)].
  - left. apply (sum_list_with_lt _ _ _ (dest fl)); [|done|].
    + intros y _. destruct (decide (dest fl = y)) as [<-|E].
      * rewrite lookup_insert_eq, Hnone. lia.
      * by rewrite lookup_insert_ne.
    + rewrite lookup_insert_eq, Hnone. lia.
  - right. split.
    + apply sum_list_with_eq. intros y _.
      destruct (decide (dest fl = y)) as [<-|E].
      * by rewrite lookup_insert_eq, Hb.
      * by rewrite lookup_insert_ne.
    + left. apply (sum_list_with_lt _ _ _ (dest fl)); [|done|].
      * intros y _. destruct (decide (dest fl = y)) as [<-|E].
        -- rewrite lookup_insert_eq, Hb. simpl. lia.
        -- by rewrite lookup_insert_ne.
      * rewrite lookup_insert_eq, Hb. simpl. lia.
Qed.

Lemma c_expand_measure cost time airport st :
  c_inv_mid start cabin cost airport st ->
  lex3 (c_measure graph (c_expand graph start ed cabin cost time airport st))
       (c_measure graph st)
  \/ c_measure graph (c_expand graph start ed cabin cost time airport st)
     = c_measure graph st.
Proof.
  intros Hmid. unfold c_expand.
  cut (c_inv_mid start cabin cost airport
         (fold_left (c_relax start ed cabin cost time airport)
            (outbound graph airport) st)
       /\ (lex3 (c_measure graph
                   (fold_left (c_relax start ed cabin cost time airport)
                      (outbound graph airport) st))
                (c_measure graph st)
           \/ c_measure graph
                (fold_left (c_relax start ed cabin cost time airport)
                   (outbound graph airport) st)
              = c_measure graph st)).
  { by intros [_ ?]. }
  apply (fold_left_inv _
           (fun s => c_inv_mid start cabin cost airport s
                     /\ (lex3 (c_measure graph s) (c_measure graph st)
                         \/ c_measure graph s = c_measure graph st)));
    [by auto|].
  intros fl s Hin [Hs Hm]. split; [by apply (c_relax_inv_mid graph)|].
  destruct (c_relax_measure cost time airport s fl Hin Hs) as [Hlt| ->];
    [|done].
  left. destruct Hm as [Hm| <-]; [by eapply lex3_trans|done].
Qed.

Lemma c_loop_terminates_from st :
  c_inv start cabin st ->
  exists fuel st', c_loop graph start dst ed cabin fuel st = Some st'.
Proof.
  remember (c_measure graph st) as m eqn:Em. revert st Em.
  induction m as [m IH] using (well_founded_induction lex3_wf).
  intros st -> Hinv.
  destruct (c_pq st) as [|[[cost time] airport] rest] eqn:Epq.
  { exists O, st. simpl. by rewrite Epq. }
  destruct (String.eqb airport dst) eqn:Edst.
  { exists O. eexists. simpl. by rewrite Epq, Edst. }
  set (st0 := mkCState rest (c_best_cost st) (c_best_time st) (c_prev st)).
  assert (Hmid : c_inv_mid start cabin cost airport st0).
  { split.
    - apply c_inv_drop_pq; [done|]. intros e He. rewrite Epq. by right.
    - apply (ci_pq _ _ _ Hinv cost time airport). rewrite Epq. by left. }
  assert (Hlt0 : lex3 (c_measure graph st0) (c_measure graph st)).
  { unfold lex3, c_measure; simpl. rewrite Epq; simpl. lia. }
  destruct (IH (c_measure graph
                  (c_expand graph start ed cabin cost time airport st0)))
    with (st := c_expand graph start ed cabin cost time airport st0)
    as (fuel & st' & Hloop).
  - destruct (c_expand_measure cost time airport st0 Hmid) as [H| ->];
      [by eapply lex3_trans|done].
  - done.
  - by apply c_expand_inv.
  - exists (S fuel), st'. simpl. by rewrite Epq, Edst.
Qed.

Lemma c_loop_mono : forall fuel st st',
  c_loop graph start dst ed cabin fuel st = Some st' ->
  forall fuel', (fuel <= fuel')%nat ->
                c_loop graph start dst ed cabin fuel' st = Some st'.
Proof.
  induction fuel as [|n IH]; intros st st' H [|m] Hle; try lia; try done;
    simpl in *; destruct (c_pq st) as [|[[cost time] airport] rest];
    try done; destruct (String.eqb airport dst); try done.
  apply IH; [done|lia].
Qed.

(** With non-negative prices the queue loop of the cheapest search
    ends. *)
Lemma c_loop_terminates :
  exists n st, forall fuel, (n <= fuel)%nat ->
    c_loop graph start dst ed cabin fuel (c_init start ed) = Some st.
Proof.
  destruct (c_loop_terminates_from (c_init start ed)) as (n & st & H).
  { by apply c_init_inv. }
  exists n, st. intros fuel Hle. by eapply c_loop_mono.
Qed.
End CheapestTermination.

(* ===================================================================== *)
(** ** The backward walk of the earliest search ends *)
(* ===================================================================== *)

Section EarliestInvariant.
Variable graph : Graph.
Variables start dst : string.
Variable ed : Z.
Hypothesis Hkeyed : graph_keyed graph.
Hypothesis Hvalid : times_valid graph.

Lemma e_relax_inv_mid time airport st fl :
  In fl (outbound graph airport) ->
  e_inv_mid start ed time airport st ->
  e_inv_mid start ed time airport (e_relax start ed time airport st fl).
Proof.
  intros Hin [Hinv (ba & Hba & Hle)].
  destruct (e_relax_cases start ed time airport st fl)
    as [->|(Hthr & Himp & ->)]; [by split; eauto|].
  apply outbound_In in Hin as (fs & Hfs & Hin).
  pose proof (Hkeyed _ _ _ Hfs Hin) as Horg.
  pose proof (Hvalid _ _ _ Hfs Hin) as Hdur.
  destruct Hinv as [Hsync Hdom Hlink Hpq Hlow].
  pose proof (Hlow _ _ Hba) as Hba0.
  assert (Hbelow : forall b, e_best_time st !! dest fl = Some b ->
                             arrive fl < b).
  { intros b Hb. destruct Himp as [Hn|(b' & Hb' & Hlt)]; congruence. }
  unfold MIN_LAYOVER_MINUTES in Hthr.
  split; [split; simpl|simpl].
  - intros x f. rewrite lookup_insert_Some.
    intros [[<- <-]|[Hx Hf]]; [by rewrite lookup_insert_eq|].
    rewrite lookup_insert_ne by done. by apply Hsync.
  - intros x b. destruct (decide (dest fl = x)) as [<-|E].
    + intros _. right. by rewrite lookup_insert_eq.
    + rewrite !lookup_insert_ne by done. apply Hdom.
  - intros x f. rewrite lookup_insert_Some.
    intros [[<- <-]|[Hx Hf]].
    + rewrite Horg. destruct (String.eqb_spec airport start) as [->|Hns];
        [by left|right].
      assert (airport <> dest fl).
      { intros ->. apply Hbelow in Hba. lia. }
      exists ba. rewrite lookup_insert_ne by done. split; [done|lia].
    + destruct (Hlink _ _ Hf) as [?|(b & Hb & Hlt)]; [by left|right].
      destruct (decide (dest fl = origin f)) as [E|E].
      * exists (arrive fl). rewrite <- E, lookup_insert_eq.
        rewrite <- E in Hb. apply Hbelow in Hb. split; [done|lia].
      * exists b. by rewrite lookup_insert_ne.
  - intros t a. rewrite heappush_In.
    intros [[= -> ->]|Hin'].
    + exists (arrive fl). rewrite lookup_insert_eq. split; [done|lia].
    + destruct (Hpq _ _ Hin') as (b & Hb & Hbt).
      destruct (decide (dest fl = a)) as [<-|E].
      * exists (arrive fl). rewrite lookup_insert_eq. apply Hbelow in Hb.
        split; [done|lia].
      * exists b. by rewrite lookup_insert_ne.
  - intros x b. rewrite lookup_insert_Some.
    intros [[_ <-]|[_ Hx]]; [|by eapply Hlow].
    destruct (String.eqb airport start); lia.
  - destruct (decide (dest fl = airport)) as [E|E].
    + exists (arrive fl). rewrite E, lookup_insert_eq.
      rewrite E in Hbelow. apply Hbelow in Hba. split; [done|lia].
    + exists ba. by rewrite lookup_insert_ne.
Qed.

Lemma e_inv_drop_pq st rest :
  e_inv start ed st -> (forall e, In e rest -> In e (e_pq st)) ->
  e_inv start ed (mkEState rest (e_best_time st) (e_prev st)).
Proof.
  intros [Hsync Hdom Hlink Hpq Hlow] Hsub. split; simpl; try done.
  intros t a Hin. by apply (Hpq t a), Hsub.
Qed.

Lemma e_expand_inv time airport rest st :
  e_inv start ed st ->
  e_pq st = (time, airport) :: rest ->
  e_inv start ed
    (e_expand graph start ed time airport
       (mkEState rest (e_best_time st) (e_prev st))).
Proof.
  intros Hinv Epq.
  cut (e_inv_mid start ed time airport
         (e_expand graph start ed time airport
            (mkEState rest (e_best_time st) (e_prev st)))).
  { by intros [? _]. }
  unfold e_expand.
  apply (fold_left_inv _ (e_inv_mid start ed time airport)).
  - split.
    + apply e_inv_drop_pq; [done|]. intros e He. rewrite Epq. by right.
    + apply (ei_pq _ _ _ Hinv time airport). rewrite Epq. by left.
  - intros fl s Hin Hs. by apply e_relax_inv_mid.
Qed.

Lemma e_init_inv : e_inv start ed (e_init start ed).
Proof.
  split; simpl.
  - intros x f. by rewrite lookup_empty.
  - intros x b. rewrite lookup_singleton_Some. intros [<- _]. by left.
  - intros x f. by rewrite lookup_empty.
  - intros t a [[= <- <-]|[]]. exists ed.
    by rewrite lookup_singleton_eq.
  - intros x b. rewrite lookup_singleton_Some. intros [_ <-]. done.
Qed.

Lemma e_loop_inv fuel st st' :
  e_inv start ed st ->
  e_loop graph start dst ed fuel st = Some st' ->
  e_inv start ed st'.
Proof.
  apply (e_loop_ind graph start dst ed (e_inv start ed) (e_inv start ed)).
  - done.
  - intros s time rest Hs Epq. apply e_inv_drop_pq; [done|].
    intros e He. rewrite Epq. by right.
  - intros s time airport rest Hs Epq _. by apply e_expand_inv.
Qed.

Lemma e_walk_returns st :
  e_inv start ed st ->
  forall m x b, e_best_time st !! x = Some b ->
    (Z.to_nat (b - ed) <= m)%nat ->
    exists n l, forall k, (n <= k)%nat ->
      e_walk start k (e_prev st) x = Ret (Some l).
Proof.
  intros Hinv. induction m as [m IH] using lt_wf_ind. intros x b Hb Hm.
  destruct (String.eqb_spec x start) as [->|Hne].
  { exists O, []. intros k _. apply e_walk_at_start. }
  destruct (ei_dom _ _ _ Hinv _ _ Hb) as [?|[f Hf]]; [done|].
  pose proof (ei_sync _ _ _ Hinv _ _ Hf) as Hs.
  assert (b = arrive f) as -> by congruence.
  assert (Hsub : exists n l, forall k, (n <= k)%nat ->
            e_walk start k (e_prev st) (origin f) = Ret (Some l)).
  { destruct (ei_link _ _ _ Hinv _ _ Hf) as [->|(b' & Hb' & Hlt)].
    - exists O, []. intros k _. apply e_walk_at_start.
    - pose proof (ei_low _ _ _ Hinv _ _ Hb').
      apply (IH (Z.to_nat (b' - ed))) with (b := b'); [lia|done|lia]. }
  destruct Hsub as (n & l & Hn).
  exists (S n), (f :: l). intros [|k] Hk; [lia|]. simpl.
  apply String.eqb_neq in Hne. rewrite Hne, Hf, Hn by lia. done.
Qed.
End EarliestInvariant.

(* ===================================================================== *)
(** ** Every queue entry comes from a feasible path *)
(* ===================================================================== *)

Lemma path_ok_snoc graph p : forall s thr l f,
  path_ok graph s thr p -> last p = Some l ->
  origin f = dest l -> In f (outbound graph (dest l)) ->
  arrive l + MIN_LAYOVER_MINUTES <= depart f ->
  path_ok graph s thr (p ++ [f]).
Proof.
  induction p as [|g p IH]; intros s thr l f Hp Hl Ho Hin Hd; [done|].
  destruct Hp as (Hg & Hgin & Hthr & Hp). simpl. repeat split; try done.
  destruct p as [|g' p'].
  - injection Hl as <-. simpl. done.
  - apply (IH _ _ l); try done.
Qed.

Lemma feasible_single graph start ed f :
  origin f = start -> In f (outbound graph start) -> ed <= depart f ->
  feasible_path graph start (dest f) ed [f]
  /\ path_arrival [f] = Some (arrive f).
Proof. intros. repeat split; done. Qed.

Lemma feasible_snoc graph start ed a t p f :
  feasible_path graph start a ed p -> path_arrival p = Some t ->
  origin f = a -> In f (outbound graph a) ->
  t + MIN_LAYOVER_MINUTES <= depart f ->
  feasible_path graph start (dest f) ed (p ++ [f])
  /\ path_arrival (p ++ [f]) = Some (arrive f).
Proof.
  intros [Hp Hl] Ht Ho Hin Hd.
  unfold path_arrival, arrive_time in *. simpl in *.
  destruct (last p) as [l|] eqn:El; [|done].
  simpl in Hl, Ht. injection Hl as Hl. injection Ht as Ht. subst a t.
  repeat split.
  - by apply (path_ok_snoc _ _ _ _ l).
  - by rewrite last_snoc.
  - by rewrite last_snoc.
Qed.

Lemma arrives_at_extend graph start ed time airport fl :
  graph_keyed graph ->
  arrives_at graph start ed airport time ->
  In fl (outbound graph airport) ->
  (if String.eqb airport start then ed else time + MIN_LAYOVER_MINUTES)
    <= depart fl ->
  arrives_at graph start ed (dest fl) (arrive fl)
  /\ exists p, feasible_path graph start (dest fl) ed p.
Proof.
  intros Hkeyed Harr Hin Hthr.
  assert (Horg : origin fl = airport).
  { apply outbound_In in Hin as (fs & Hfs & Hin). by eapply Hkeyed. }
  cut (exists p, feasible_path graph start (dest fl) ed p
                 /\ path_arrival p = Some (arrive fl)).
  { intros (p & Hp & Ha). split; [right|]; eauto. }
  destruct (String.eqb_spec airport start) as [->|Hne].
  - exists [fl]. by apply feasible_single.
  - destruct Harr as [[-> _]|(p & Hp & Ha)]; [done|].
    exists (p ++ [fl]). by eapply feasible_snoc.
Qed.

Section Ghost.
Variable graph : Graph.
Variables start dst : string.
Variable ed : Z.
Hypothesis Hkeyed : graph_keyed graph.

Lemma e_loop_ghost fuel st st' :
  e_ghost graph start ed st ->
  e_loop graph start dst ed fuel st = Some st' ->
  e_ghost graph start ed st'.
Proof.
  apply (e_loop_ind graph start dst ed
           (e_ghost graph start ed) (e_ghost graph start ed)).
  - done.
  - intros s time rest [Hpq Hprev] Epq. split; simpl; [|done].
    intros t a Hin. apply Hpq. rewrite Epq. by right.
  - intros s time airport rest [Hpq Hprev] Epq _. unfold e_expand.
    assert (Hpop : arrives_at graph start ed airport time).
    { apply Hpq. rewrite Epq. by left. }
    apply fold_left_inv.
    + split; simpl; [|done].
      intros t a Hin. apply Hpq. rewrite Epq. by right.
    + intros fl s' Hin [Hpq' Hprev'].
      destruct (e_relax_cases start ed time airport s' fl)
        as [->|(Hthr & _ & ->)]; [done|].
      destruct (arrives_at_extend _ _ _ _ _ _ Hkeyed Hpop Hin Hthr)
        as [Hnew Hpath].
      split; simpl.
      * intros t a. rewrite heappush_In.
        intros [[= -> ->]|Hin']; [done|by apply Hpq'].
      * intros x f. rewrite lookup_insert_Some.
        intros [[<- <-]|[_ Hf]]; [done|by eapply Hprev'].
Qed.

Lemma e_init_ghost : e_ghost graph start ed (e_init start ed).
Proof.
  split; simpl.
  - intros t a [[= <- <-]|[]]. by left.
  - intros x f. by rewrite lookup_empty.
Qed.

Variable cabin : Cabin.

Lemma c_loop_ghost fuel st st' :
  c_ghost graph start ed st ->
  c_loop graph start dst ed cabin fuel st = Some st' ->
  c_ghost graph start ed st'.
Proof.
  apply (c_loop_ind graph start dst ed cabin
           (c_ghost graph start ed) (c_ghost graph start ed)).
  - done.
  - intros s cost time rest [Hpq Hprev] Epq. split; simpl; [|done].
    intros c t a Hin. apply (Hpq c). rewrite Epq. by right.
  - intros s cost time airport rest [Hpq Hprev] Epq _. unfold c_expand.
    assert (Hpop : arrives_at graph start ed airport time).
    { apply (Hpq cost). rewrite Epq. by left. }
    apply fold_left_inv.
    + split; simpl; [|done].
      intros c t a Hin. apply (Hpq c). rewrite Epq. by right.
    + intros fl s' Hin [Hpq' Hprev'].
      destruct (c_relax_cases start ed cabin cost time airport s' fl)
        as [->|(Hthr & _ & ->)]; [done|].
      destruct (arrives_at_extend _ _ _ _ _ _ Hkeyed Hpop Hin Hthr)
        as [Hnew Hpath].
      split; simpl.
      * intros c t a. rewrite heappush_In.
        intros [[= -> -> ->]|Hin']; [done|by apply (Hpq' c)].
      * intros x f. rewrite lookup_insert_Some.
        intros [[<- <-]|[_ Hf]]; [done|by eapply Hprev'].
Qed.

Lemma c_init_ghost : c_ghost graph start ed (c_init start ed).
Proof.
  split; simpl.
  - intros c t a [[= <- <- <-]|[]]. by left.
  - intros x f. by rewrite lookup_empty.
Qed.
End Ghost.

(* ===================================================================== *)
(** ** Graphs made by [build_graph] *)
(* ===================================================================== *)

Lemma build_graph_snoc fs f :
  build_graph (fs ++ [f])
  = <[origin f := outbound (build_graph fs) (origin f) ++ [f]]> (build_graph fs).
Proof. unfold build_graph. by rewrite fold_left_app. Qed.

Lemma build_graph_lookup fs : forall k l f,
  build_graph fs !! k = Some l -> In f l -> In f fs /\ origin f = k.
Proof.
  induction fs as [|g fs IH] using rev_ind; intros k l f.
  - unfold build_graph; simpl. by rewrite lookup_empty.
  - rewrite build_graph_snoc, lookup_insert_Some.
    intros [[<- <-]|[Hne Hl]] Hin.
    + apply in_app_or in Hin as [Hin|[<-|[]]].
      * apply outbound_In in Hin as (l' & Hl' & Hin).
        destruct (IH _ _ _ Hl' Hin). split; [|done].
        apply in_or_app. by left.
      * split; [|done]. apply in_or_app. right. by left.
    + destruct (IH _ _ _ Hl Hin). split; [|done]. apply in_or_app. by left.
Qed.

Lemma build_graph_keyed fs : graph_keyed (build_graph fs).
Proof. intros k l f Hl Hin. by destruct (build_graph_lookup _ _ _ _ Hl Hin). Qed.

Lemma build_graph_times_valid fs :
  Forall (fun f => depart f < arrive f) fs -> times_valid (build_graph fs).
Proof.
  intros H k l f Hl Hin. destruct (build_graph_lookup _ _ _ _ Hl Hin) as [Hf _].
  rewrite Forall_forall in H. by apply H, list_elem_of_In.
Qed.

Lemma build_graph_prices_nonneg fs cabin :
  Forall (fun f => 0 <= price_for f cabin) fs ->
  prices_nonneg (build_graph fs) cabin.
Proof.
  intros H k l f Hl Hin. destruct (build_graph_lookup _ _ _ _ Hl Hin) as [Hf _].
  rewrite Forall_forall in H. by apply H, list_elem_of_In.
Qed.

(* ===================================================================== *)
(** ** Inputs on which a search does not end *)
(* ===================================================================== *)

Module NegativeCycleFacts.
Import NegativeCycle.

Lemma outbound_A : outbound g "A" = [ab].
Proof. vm_compute. reflexivity. Qed.

Lemma outbound_B : outbound g "B" = [ba].
Proof. vm_compute. reflexivity. Qed.

Lemma loop_spins : forall fuel st,
  spinning st -> c_loop g "A" "Z" 0 economy_cabin fuel st = None.
Proof.
  induction fuel as [|n IH]; intros st Hst.
  - destruct Hst as [(c & t & Hpq & _)|(c & Hpq & _)];
      simpl; by rewrite Hpq.
  - destruct Hst as [(c & t & Hpq & HA & HB)|(c & Hpq & HB & HA)];
      simpl; rewrite Hpq; simpl; apply IH;
      unfold c_expand; [rewrite outbound_A|rewrite outbound_B]; simpl;
      unfold c_relax; simpl.
    + assert (Himp : match c_best_cost st !! "B" with
                     | Some b => c + -1 <? b | None => true end = true).
      { destruct (c_best_cost st !! "B") as [b|] eqn:Hb; [|done].
        apply Z.ltb_lt. specialize (HB b eq_refl). lia. }
      rewrite Himp. right. exists (c + -1). simpl. split; [done|]. split.
      * intros b. rewrite lookup_insert_eq. intros [= <-]. lia.
      * intros b. rewrite lookup_insert_ne by done. intros Hb.
        apply HA in Hb. lia.
    + assert (Himp : match c_best_cost st !! "A" with
                     | Some b => c + -1 <? b | None => true end = true).
      { destruct (c_best_cost st !! "A") as [b|] eqn:Hb; [|done].
        apply Z.ltb_lt. specialize (HA b eq_refl). lia. }
      rewrite Himp. left. exists (c + -1), 660. simpl. split; [done|]. split.
      * intros b. rewrite lookup_insert_eq. intros [= <-]. lia.
      * intros b. rewrite lookup_insert_ne by done. intros Hb.
        apply HB in Hb. lia.
Qed.

Lemma init_spinning : spinning (c_init "A" 0).
Proof.
  left. exists 0, 0. simpl. split; [done|]. split; intros b.
  - rewrite lookup_singleton_eq. intros [= <-]. lia.
  - by rewrite lookup_singleton_ne.
Qed.

(** On the round trip with negative fares the cheapest search from A to
    an airport that no flight serves never leaves its queue loop. *)
Lemma cheapest_runs_on fuel :
  find_cheapest_itinerary g "A" "Z" 0 economy_cabin fuel = OutOfFuel.
Proof.
  unfold find_cheapest_itinerary.
  by rewrite (loop_spins fuel _ init_spinning).
Qed.

Lemma negative_cycle_keyed : graph_keyed g.
Proof. apply build_graph_keyed. Qed.

Lemma g_times_valid : times_valid g.
Proof.
  apply build_graph_times_valid. repeat constructor; simpl; lia.
Qed.

Lemma all_flights_g : all_flights g = [ba; ab] \/ all_flights g = [ab; ba].
Proof. vm_compute. auto. Qed.
End NegativeCycleFacts.

Lemma path_ok_last graph p : forall s thr l,
  path_ok graph s thr p -> last p = Some l -> In l (all_flights graph).
Proof.
  induction p as [|f p IH]; intros s thr l Hp Hl; [done|].
  destruct Hp as (Ho & Hin & _ & Hp). destruct p as [|f' p'].
  - injection Hl as <-. by eapply outbound_all_flights.
  - by eapply IH.
Qed.

Module TimeTravelFacts.
Import TimeTravel.

Lemma walk_spins (prev : gmap string Flight) :
  prev !! "B" = Some cb -> prev !! "C" = Some bc ->
  forall fuel, e_walk "A" fuel prev "B" = OutOfFuel
               /\ e_walk "A" fuel prev "C" = OutOfFuel.
Proof.
  intros HB HC. induction fuel as [|n [IHB IHC]]; [done|].
  simpl. rewrite HB, HC. simpl. by rewrite IHB, IHC.
Qed.

Lemma loop_ends :
  exists st, e_loop g "A" "D" 0 4 (e_init "A" 0) = Some st
             /\ e_prev st !! "D" = Some bd
             /\ e_prev st !! "B" = Some cb
             /\ e_prev st !! "C" = Some bc.
Proof. eexists. split; [vm_compute; reflexivity|]. by vm_compute. Qed.

(** With flights that arrive before they depart, the predecessor map
    that the earliest search leaves can hold a cycle, and the backward
    walk then never reaches the start. *)
Lemma earliest_runs_on fuel :
  find_earliest_itinerary g "A" "D" 0 fuel = OutOfFuel.
Proof.
  destruct (le_lt_dec 4 fuel) as [Hle|Hlt].
  - destruct loop_ends as (st & Hloop & HD & HB & HC).
    unfold find_earliest_itinerary.
    rewrite (e_loop_mono _ _ _ _ _ _ _ Hloop fuel Hle).
    rewrite HD. simpl.
    destruct fuel as [|n]; [done|]. simpl. rewrite HD. simpl.
    by rewrite (proj1 (walk_spins _ HB HC n)).
  - destruct fuel as [|[|[|[|n]]]]; try lia; by vm_compute.
Qed.

Lemma time_travel_keyed : graph_keyed g.
Proof. apply build_graph_keyed. Qed.
End TimeTravelFacts.

(* ===================================================================== *)
(** ** No feasible path, no itinerary *)
(* ===================================================================== *)

(** On a graph that lists every flight under its origin, when the start
    differs from the destination and no feasible chain of flights joins
    them, the earliest search returns "no itinerary". *)
Lemma earliest_unreachable_none (graph : Graph) (start dst : string)
  (earliest_departure : Z) :
  graph_keyed graph ->
  start <> dst ->
  (forall p, ~ feasible_path graph start dst earliest_departure p) ->
  exists n, forall fuel, (n <= fuel)%nat ->
    find_earliest_itinerary graph start dst earliest_departure fuel
    = Ret None.
Proof.
  intros Hkeyed Hne Hnone.
  destruct (e_loop_terminates graph start dst earliest_departure)
    as (n1 & st1 & H1).
  exists n1. intros fuel Hfuel.
  assert (He : e_prev st1 !! dst = None).
  { destruct (e_prev st1 !! dst) as [f|] eqn:Hf; [|done].
    pose proof (e_loop_ghost graph start dst earliest_departure Hkeyed
                  _ _ _ (e_init_ghost graph start earliest_departure)
                  (H1 n1 (le_n _))) as [_ Hprev].
    destruct (Hprev _ _ Hf) as [p Hp]. by destruct (Hnone p). }
  unfold find_earliest_itinerary.
  rewrite H1 by lia. rewrite He. simpl.
  apply String.eqb_neq in Hne. by rewrite Hne.
Qed.

(** On a graph that lists every flight under its origin and whose prices
    in the chosen cabin are non-negative, when no feasible chain of
    flights joins the start to the destination, the cheapest search
    returns "no itinerary". *)
Lemma cheapest_unreachable_none (graph : Graph) (start dst : string)
  (earliest_departure : Z) (cabin : Cabin) :
  graph_keyed graph ->
  prices_nonneg graph cabin ->
  (forall p, ~ feasible_path graph start dst earliest_departure p) ->
  exists n, forall fuel, (n <= fuel)%nat ->
    find_cheapest_itinerary graph start dst earliest_departure cabin fuel
    = Ret None.
Proof.
  intros Hkeyed Hnonneg Hnone.
  destruct (c_loop_terminates graph start dst earliest_departure cabin
              Hkeyed Hnonneg) as (n2 & st2 & H2).
  exists n2. intros fuel Hfuel.
  assert (Hc : c_prev st2 !! dst = None).
  { destruct (c_prev st2 !! dst) as [f|] eqn:Hf; [|done].
    pose proof (c_loop_ghost graph start dst earliest_departure Hkeyed cabin
                  _ _ _ (c_init_ghost graph start earliest_departure)
                  (H2 n2 (le_n _))) as [_ Hprev].
    destruct (Hprev _ _ Hf) as [p Hp]. by destruct (Hnone p). }
  unfold find_cheapest_itinerary.
  rewrite H2 by lia. by rewrite Hc.
Qed.

Lemma negative_cycle_no_path_to_Z p :
  ~ feasible_path NegativeCycle.g "A" "Z" 0 p.
Proof.
  intros [Hp Hl]. destruct (last p) as [l|] eqn:El; [|done].
  apply (path_ok_last _ _ _ _ l) in Hp; [|done].
  injection Hl as Hl.
  destruct NegativeCycleFacts.all_flights_g as [E|E]; rewrite E in Hp;
    destruct Hp as [<-|[<-|[]]]; discriminate.
Qed.

(* ===================================================================== *)
(** ** Termination of the searches *)
(* ===================================================================== *)

(** On a finite graph that lists every flight under its origin and whose
    flights arrive after they depart, the earliest search ends. *)
Lemma earliest_terminates (graph : Graph) (start dst : string)
  (earliest_departure : Z) :
  graph_keyed graph ->
  times_valid graph ->
  exists n re, forall fuel, (n <= fuel)%nat ->
    find_earliest_itinerary graph start dst earliest_departure fuel = Ret re.
Proof.
  intros Hkeyed Hvalid.
  destruct (e_loop_terminates graph start dst earliest_departure)
    as (n1 & st1 & H1).
  pose proof (e_loop_inv graph start dst earliest_departure Hkeyed Hvalid
                _ _ _ (e_init_inv start earliest_departure)
                (H1 n1 (le_n _))) as He.
  assert (Hew : exists n re, forall fuel, (n <= fuel)%nat ->
            (if bool_decide (e_prev st1 !! dst = None)
                && negb (String.eqb start dst)
             then Ret None
             else r ← e_walk start fuel (e_prev st1) dst;
                  Ret (option_map (fun l => mkItinerary (rev l)) r))
            = Ret re).
  { destruct (String.eqb_spec start dst) as [<-|Hne].
    - exists O. eexists. intros fuel _.
      rewrite andb_false_r, e_walk_at_start. simpl. reflexivity.
    - destruct (e_prev st1 !! dst) as [f|] eqn:Hf.
      + pose proof (ei_sync _ _ _ He _ _ Hf) as Hb.
        destruct (e_walk_returns start earliest_departure st1 He _ _ _ Hb
                    (le_n _)) as (n & l & Hn).
        exists n. eexists. intros fuel Hfuel. simpl.
        rewrite Hn by done. simpl. reflexivity.
      + exists O. eexists. intros fuel _. simpl. reflexivity. }
  destruct Hew as (m1 & re & Hre).
  exists (max n1 m1), re. intros fuel Hfuel.
  unfold find_earliest_itinerary.
  rewrite H1 by lia. apply Hre. lia.
Qed.

(** On a finite graph that lists every flight under its origin and whose
    prices in the chosen cabin are non-negative, the cheapest search
    ends. *)
Lemma cheapest_terminates (graph : Graph) (start dst : string)
  (earliest_departure : Z) (cabin : Cabin) :
  graph_keyed graph ->
  prices_nonneg graph cabin ->
  exists n rc, forall fuel, (n <= fuel)%nat ->
    find_cheapest_itinerary graph start dst earliest_departure cabin fuel
    = Ret rc.
Proof.
  intros Hkeyed Hnonneg.
  destruct (c_loop_terminates graph start dst earliest_departure cabin
              Hkeyed Hnonneg) as (n2 & st2 & H2).
  pose proof (c_loop_inv graph start dst earliest_departure cabin
                Hkeyed Hnonneg _ _ _
                (c_init_inv start earliest_departure cabin)
                (H2 n2 (le_n _))) as Hc.
  assert (Hcw : exists n rc, forall fuel, (n <= fuel)%nat ->
            (if bool_decide (c_prev st2 !! dst = None) then Ret None
             else l ← c_walk start fuel (c_prev st2) dst;
                  Ret (Some (mkItinerary (rev l))))
            = Ret rc).
  { destruct (c_prev st2 !! dst) as [f|] eqn:Hf.
    - destruct (ci_link _ _ _ Hc _ _ Hf) as (c & _ & Hcost & _).
      destruct (c_walk_reaches start (c_prev st2) dst) as (n & l & Hn).
      { apply (ci_reach _ _ _ Hc). eauto. }
      exists n. eexists. intros fuel Hfuel. simpl.
      rewrite Hn by done. simpl. reflexivity.
    - exists O. eexists. intros fuel _. simpl. reflexivity. }
  destruct Hcw as (m2 & rc & Hrc).
  exists (max n2 m2), rc. intros fuel Hfuel.
  unfold find_cheapest_itinerary.
  rewrite H2 by lia. apply Hrc. lia.
Qed.


(* ===================================================================== *)
(** ** A larger iteration budget does not change a result *)
(* ===================================================================== *)

Lemma e_walk_mono start prev : forall fuel cur r,
  e_walk start fuel prev cur = Ret r ->
  forall fuel', (fuel <= fuel')%nat -> e_walk start fuel' prev cur = Ret r.
Proof.
  induction fuel as [|n IH]; intros cur r H [|m] Hle; try lia; try done;
    simpl in *; destruct (String.eqb cur start); try done.
  destruct (prev !! cur) as [fl|]; [|done].
  destruct (e_walk start n prev (origin fl)) as [o| |] eqn:Hw; try done.
  rewrite (IH _ _ Hw m) by lia. done.
Qed.

Lemma c_walk_mono start prev : forall fuel cur r,
  c_walk start fuel prev cur = Ret r ->
  forall fuel', (fuel <= fuel')%nat -> c_walk start fuel' prev cur = Ret r.
Proof.
  induction fuel as [|n IH]; intros cur r H [|m] Hle; try lia; try done;
    simpl in *; destruct (String.eqb cur start); try done.
  destruct (prev !! cur) as [fl|]; [|done].
  destruct (c_walk start n prev (origin fl)) as [o| |] eqn:Hw; try done.
  rewrite (IH _ _ Hw m) by lia. done.
Qed.

Lemma find_earliest_itinerary_mono graph start dst ed fuel r :
  find_earliest_itinerary graph start dst ed fuel = Ret r ->
  forall fuel', (fuel <= fuel')%nat ->
    find_earliest_itinerary graph start dst ed fuel' = Ret r.
Proof.
  unfold find_earliest_itinerary. intros H fuel' Hle.
  destruct (e_loop graph start dst ed fuel _) as [st|] eqn:Hloop; [|done].
  rewrite (e_loop_mono _ _ _ _ _ _ _ Hloop fuel' Hle).
  destruct (_ && _); [done|].
  apply bind_ret in H as (o & Hw & Ho).
  by rewrite (e_walk_mono _ _ _ _ _ Hw fuel' Hle).
Qed.

Lemma find_cheapest_itinerary_mono graph start dst ed cabin fuel r :
  find_cheapest_itinerary graph start dst ed cabin fuel = Ret r ->
  forall fuel', (fuel <= fuel')%nat ->
    find_cheapest_itinerary graph start dst ed cabin fuel' = Ret r.
Proof.
  unfold find_cheapest_itinerary. intros H fuel' Hle.
  destruct (c_loop graph start dst ed cabin fuel _) as [st|] eqn:Hloop;
    [|done].
  rewrite (c_loop_mono _ _ _ _ _ _ _ _ Hloop fuel' Hle).
  destruct (bool_decide _); [done|].
  apply bind_ret in H as (o & Hw & Ho).
  by rewrite (c_walk_mono _ _ _ _ _ Hw fuel' Hle).
Qed.

(* ===================================================================== *)
(** ** Graphs that list a flight under another airport than its origin *)
(* ===================================================================== *)

Module MisfiledFacts.
Import Misfiled.

Lemma singleton_prices_nonneg (k : string) (fs : list Flight) cabin :
  Forall (fun f => 0 <= price_for f cabin) fs ->
  prices_nonneg ({[ k := fs ]} : Graph) cabin.
Proof.
  intros H k' fs' f Hk Hf. apply lookup_singleton_Some in Hk as [_ <-].
  rewrite Forall_forall in H. by apply H, list_elem_of_In.
Qed.

Lemma singleton_times_valid (k : string) (fs : list Flight) :
  Forall (fun f => depart f < arrive f) fs ->
  times_valid ({[ k := fs ]} : Graph).
Proof.
  intros H k' fs' f Hk Hf. apply lookup_singleton_Some in Hk as [_ <-].
  rewrite Forall_forall in H. by apply H, list_elem_of_In.
Qed.

Lemma g_key_prices_nonneg cabin : prices_nonneg g_key cabin.
Proof.
  apply singleton_prices_nonneg. repeat constructor; destruct cabin; simpl; lia.
Qed.

Lemma g_loop_prices_nonneg cabin : prices_nonneg g_loop cabin.
Proof.
  apply singleton_prices_nonneg. repeat constructor; destruct cabin; simpl; lia.
Qed.

Lemma g_loop_times_valid : times_valid g_loop.
Proof. apply singleton_times_valid. repeat constructor; simpl; lia. Qed.

Lemma g_early_times_valid : times_valid g_early.
Proof. apply singleton_times_valid. repeat constructor; simpl; lia. Qed.

(** No listed flight leaves A, so nothing is reachable from A. *)
Lemma g_key_no_path ed p : ~ feasible_path g_key "A" "C" ed p.
Proof.
  intros [Hp Hl]. destruct p as [|f p]; [done|].
  destruct Hp as (Ho & Hf & _).
  vm_compute in Hf. destruct Hf as [<-|[]]. discriminate.
Qed.

(** The one flight that leaves A lands at B, and B lists nothing. *)
Lemma g_early_no_path ed p : ~ feasible_path g_early "A" "C" ed p.
Proof.
  intros [Hp Hl]. destruct p as [|f p]; [done|].
  destruct Hp as (Ho & Hf & _ & Hp).
  vm_compute in Hf. destruct Hf as [<-|[<-|[]]]; [discriminate|].
  destruct p as [|f' p]; [discriminate|].
  destruct Hp as (_ & Hf' & _). vm_compute in Hf'. done.
Qed.

Lemma g_key_loop_ends :
  exists st, c_loop g_key "A" "C" 0 economy_cabin 1 (c_init "A" 0) = Some st
             /\ c_prev st !! "C" = Some xc
             /\ c_prev st !! "X" = None.
Proof. eexists. split; [vm_compute; reflexivity|]. by vm_compute. Qed.

Lemma g_key_walk (prev : gmap string Flight) :
  prev !! "C" = Some xc -> prev !! "X" = None ->
  forall k, c_walk "A" (S (S k)) prev "C" = Raise (KeyError "X").
Proof. intros HC HX k. simpl. rewrite HC. simpl. by rewrite HX. Qed.

(** The cheapest search ends its loop at C and then asks the predecessor
    map for X, which was never labelled. *)
Lemma cheapest_key_error fuel :
  (2 <= fuel)%nat ->
  find_cheapest_itinerary g_key "A" "C" 0 economy_cabin fuel
  = Raise (KeyError "X").
Proof.
  intros Hfuel. destruct g_key_loop_ends as (st & Hloop & HC & HX).
  unfold find_cheapest_itinerary.
  rewrite (c_loop_mono _ _ _ _ _ _ _ _ Hloop fuel) by lia.
  rewrite HC. simpl.
  destruct fuel as [|[|k]]; try lia.
  by rewrite (g_key_walk _ HC HX k).
Qed.

(** The earliest search takes the misfiled flight as a flight out of A
    and joins it to the flight that lands at B later than it leaves. *)
Lemma earliest_misfiled_itinerary fuel :
  (2 <= fuel)%nat ->
  find_earliest_itinerary g_early "A" "C" 0 fuel
  = Ret (Some (mkItinerary [ab; bc])).
Proof.
  intros Hfuel.
  apply (find_earliest_itinerary_mono _ _ _ _ 2%nat); [|done].
  vm_compute. reflexivity.
Qed.

Lemma g_loop_e_loop_ends :
  exists st, e_loop g_loop "A" "C" 0 1 (e_init "A" 0) = Some st
             /\ e_prev st !! "C" = Some cc.
Proof. eexists. split; [vm_compute; reflexivity|]. by vm_compute. Qed.

Lemma g_loop_c_loop_ends :
  exists st, c_loop g_loop "A" "C" 0 economy_cabin 1 (c_init "A" 0) = Some st
             /\ c_prev st !! "C" = Some cc.
Proof. eexists. split; [vm_compute; reflexivity|]. by vm_compute. Qed.

Lemma e_walk_spins (prev : gmap string Flight) :
  prev !! "C" = Some cc ->
  forall fuel, e_walk "A" fuel prev "C" = OutOfFuel.
Proof.
  intros HC. induction fuel as [|n IH]; [done|].
  simpl. rewrite HC. simpl. by rewrite IH.
Qed.

Lemma c_walk_spins (prev : gmap string Flight) :
  prev !! "C" = Some cc ->
  forall fuel, c_walk "A" fuel prev "C" = OutOfFuel.
Proof.
  intros HC. induction fuel as [|n IH]; [done|].
  simpl. rewrite HC. simpl. by rewrite IH.
Qed.

(** With a flight from C to C listed under A, the predecessor of C is C
    and the backward walk of either search never reaches A. *)
Lemma earliest_walk_runs_on fuel :
  find_earliest_itinerary g_loop "A" "C" 0 fuel = OutOfFuel.
Proof.
  destruct fuel as [|n]; [by vm_compute|].
  destruct g_loop_e_loop_ends as (st & Hloop & HC).
  unfold find_earliest_itinerary.
  rewrite (e_loop_mono _ _ _ _ _ _ _ Hloop (S n)) by lia.
  rewrite HC. simpl. rewrite HC. simpl.
  by rewrite (e_walk_spins _ HC n).
Qed.

Lemma cheapest_walk_runs_on fuel :
  find_cheapest_itinerary g_loop "A" "C" 0 economy_cabin fuel = OutOfFuel.
Proof.
  destruct fuel as [|n]; [by vm_compute|].
  destruct g_loop_c_loop_ends as (st & Hloop & HC).
  unfold find_cheapest_itinerary.
  rewrite (c_loop_mono _ _ _ _ _ _ _ _ Hloop (S n)) by lia.
  rewrite HC. simpl. rewrite HC. simpl.
  by rewrite (c_walk_spins _ HC n).
Qed.
End MisfiledFacts.

(* ===================================================================== *)
(** ** The cheapest search and connections that a cheaper leg misses *)
(* ===================================================================== *)

Module OvertakenFacts.
Import Overtaken.

Lemma schedule1_validated : Forall validated schedule1.
Proof. repeat constructor; simpl; lia. Qed.

Lemma schedule2_validated : Forall validated schedule2.
Proof. repeat constructor; simpl; lia. Qed.

Lemma dear_path_feasible : feasible_path g1 "A" "C" 0 [ab_dear; bc].
Proof.
  split; [|done]. simpl. repeat split; try done.
  - vm_compute. auto.
  - vm_compute. auto.
Qed.
End OvertakenFacts.

(* ===================================================================== *)
(** ** The earliest search returns an earliest arrival *)
(* ===================================================================== *)

Lemma entry2_leb_true x y : entry2_leb x y = true -> x.1 <= y.1.
Proof.
  unfold entry2_leb. intros [H|[H _]%andb_true_iff]%orb_true_iff.
  - apply Z.ltb_lt in H. lia.
  - apply Z.eqb_eq in H. lia.
Qed.

Lemma entry2_leb_false x y : entry2_leb x y = false -> y.1 <= x.1.
Proof.
  unfold entry2_leb. intros [H _]%orb_false_iff. apply Z.ltb_ge in H. lia.
Qed.

Lemma heappush_sorted pq x :
  pq_sorted pq -> pq_sorted (heappush entry2_leb pq x).
Proof.
  unfold pq_sorted. induction 1 as [|y pq Hs IH Hy]; simpl.
  - repeat constructor.
  - destruct (entry2_leb x y) eqn:E.
    + apply entry2_leb_true in E. constructor; [by constructor|].
      constructor; [done|]. eapply Forall_impl; [exact Hy|].
      intros z Hz. simpl in *. lia.
    + apply entry2_leb_false in E. constructor; [done|].
      rewrite Forall_forall. intros z Hz%list_elem_of_In%heappush_In.
      destruct Hz as [->|Hz]; [done|].
      rewrite Forall_forall in Hy. by apply Hy, list_elem_of_In.
Qed.

Lemma pq_sorted_head time airport rest t a :
  pq_sorted ((time, airport) :: rest) -> In (t, a) ((time, airport) :: rest) ->
  time <= t.
Proof.
  intros Hs [[= -> ->]|Hin]; [done|].
  apply StronglySorted_inv in Hs as [_ Hall].
  rewrite Forall_forall in Hall.
  by apply (Hall (t, a)), list_elem_of_In.
Qed.

Lemma path_ok_snoc_inv graph q : forall s thr f,
  path_ok graph s thr (q ++ [f]) ->
  path_ok graph s thr q
  /\ match last q with
     | None => origin f = s /\ In f (outbound graph s) /\ thr <= depart f
     | Some l => origin f = dest l /\ In f (outbound graph (dest l))
                 /\ arrive l + MIN_LAYOVER_MINUTES <= depart f
     end.
Proof.
  induction q as [|g q IH]; intros s thr f; simpl.
  - intros (Ho & Hin & Hthr & _). done.
  - intros (Ho & Hin & Hthr & Hq). apply IH in Hq as [Hq Hl].
    split; [done|]. destruct q as [|g' q'].
    + simpl in *. destruct Hl as (? & ? & ?). done.
    + rewrite last_cons_cons.
      destruct (last (g' :: q')) eqn:E; [exact Hl|].
      by apply last_None in E.
Qed.

Section EarliestOptimal.
Variable graph : Graph.
Variables start dst : string.
Variable ed : Z.
Hypothesis Hvalid : times_valid graph.

Lemma relaxed_all_mono (best best' : gmap string Z) y t fs :
  (forall x b, best !! x = Some b ->
     exists b', best' !! x = Some b' /\ b' <= b) ->
  relaxed_all start ed best y t fs -> relaxed_all start ed best' y t fs.
Proof.
  intros Hle H f Hin Hthr. destruct (H f Hin Hthr) as (b & Hb & Hba).
  destruct (Hle _ _ Hb) as (b' & Hb' & ?). exists b'. split; [done|lia].
Qed.

Lemma e_relax_best_le time airport st fl x b :
  e_best_time st !! x = Some b ->
  exists b', e_best_time (e_relax start ed time airport st fl) !! x = Some b'
             /\ b' <= b.
Proof.
  intros Hb.
  destruct (e_relax_cases start ed time airport st fl)
    as [->|(_ & Himp & ->)]; [exists b; split; [done|lia]|].
  simpl. destruct (decide (dest fl = x)) as [<-|E].
  - exists (arrive fl). rewrite lookup_insert_eq. split; [done|].
    destruct Himp as [Hn|(b' & Hb' & Hlt)]; [congruence|].
    assert (b' = b) by congruence. lia.
  - exists b. rewrite lookup_insert_ne by done. split; [done|lia].
Qed.

Lemma e_relax_opt_mid time airport done st fl :
  In fl (outbound graph airport) ->
  e_opt_mid graph start dst ed time airport done st ->
  e_opt_mid graph start dst ed time airport (done ++ [fl])
    (e_relax start ed time airport st fl).
Proof.
  intros Hin Hmid.
  pose proof (e_relax_best_le time airport st fl) as Hle.
  pose proof (e_relax_settles start ed time airport st fl) as Hset.
  assert (Hclosed : forall y t,
    e_best_time (e_relax start ed time airport st fl) !! y = Some t ->
    e_best_time st !! y = Some t ->
    In (t, y) (e_pq (e_relax start ed time airport st fl))
    \/ (y <> dst
        /\ relaxed_all start ed
             (e_best_time (e_relax start ed time airport st fl)) y t
             (outbound graph y))
    \/ (y = airport /\ t = time
        /\ relaxed_all start ed
             (e_best_time (e_relax start ed time airport st fl)) y t
             (done ++ [fl]))).
  { intros y t _ Hold.
    destruct (em_closed _ _ _ _ _ _ _ _ Hmid _ _ Hold)
      as [Hq|[[Hy Hr]|(-> & -> & Hr)]].
    - left. destruct (e_relax_cases start ed time airport st fl)
        as [->|(_ & _ & ->)]; [done|]. simpl. apply heappush_In. by right.
    - right. left. split; [done|]. by eapply relaxed_all_mono.
    - right. right. repeat split.
      intros f [Hf|[<-|[]]]%in_app_or Hthr.
      + by apply (relaxed_all_mono _ _ _ _ _ Hle Hr).
      + by apply Hset. }
  destruct (e_relax_cases start ed time airport st fl)
    as [E|(Hthr & Himp & E)].
  { rewrite E in *. destruct Hmid. split; try done.
    intros y t Hy. by apply Hclosed. }
  rewrite E in *. clear E. simpl in *.
  apply outbound_In in Hin as (fs & Hfs & Hin).
  pose proof (Hvalid _ _ _ Hfs Hin) as Hdur.
  destruct Hmid as [Hsync Hpq Hsorted Hlow Hstart Hpop Hcl].
  destruct Hpop as (ba & Hba & Hbat).
  pose proof (Hlow _ _ Hba) as Hba0.
  assert (Hbelow : forall b, e_best_time st !! dest fl = Some b ->
                             arrive fl < b).
  { intros b Hb. destruct Himp as [Hn|(b' & Hb' & Hlt)]; congruence. }
  unfold MIN_LAYOVER_MINUTES in Hthr.
  split; simpl.
  - intros x f. rewrite lookup_insert_Some.
    intros [[<- <-]|[Hx Hf]]; [by rewrite lookup_insert_eq|].
    rewrite lookup_insert_ne by done. by apply Hsync.
  - intros t a. rewrite heappush_In.
    intros [[= -> ->]|Hin'].
    + exists (arrive fl). rewrite lookup_insert_eq. split; [done|lia].
    + destruct (Hpq _ _ Hin') as (b & Hb & Hbt).
      destruct (decide (dest fl = a)) as [<-|E].
      * exists (arrive fl). rewrite lookup_insert_eq. apply Hbelow in Hb.
        split; [done|lia].
      * exists b. by rewrite lookup_insert_ne.
  - by apply heappush_sorted.
  - intros x b. rewrite lookup_insert_Some.
    intros [[_ <-]|[_ Hx]]; [|by eapply Hlow].
    destruct (String.eqb airport start); lia.
  - destruct Hstart as (b & Hb & Hbe).
    destruct (decide (dest fl = start)) as [E|E].
    + exists (arrive fl). rewrite E, lookup_insert_eq.
      rewrite E in Hbelow. apply Hbelow in Hb. split; [done|lia].
    + exists b. by rewrite lookup_insert_ne.
  - destruct (decide (dest fl = airport)) as [E|E].
    + exists (arrive fl). rewrite E, lookup_insert_eq.
      rewrite E in Hbelow. apply Hbelow in Hba. split; [done|lia].
    + exists ba. by rewrite lookup_insert_ne.
  - intros y t. destruct (decide (dest fl = y)) as [<-|E].
    + rewrite lookup_insert_eq. intros [= <-]. left.
      apply heappush_In. by left.
    + intros Hy. apply Hclosed; [done|].
      by rewrite lookup_insert_ne in Hy.
Qed.

Lemma e_expand_opt time airport rest st :
  e_opt graph start dst ed st ->
  e_pq st = (time, airport) :: rest ->
  airport <> dst ->
  e_opt graph start dst ed
    (e_expand graph start ed time airport
       (mkEState rest (e_best_time st) (e_prev st))).
Proof.
  intros [Hsync Hpq Hsorted Hlow Hstart Hcl] Epq Hne.
  cut (e_opt_mid graph start dst ed time airport (outbound graph airport)
         (e_expand graph start ed time airport
            (mkEState rest (e_best_time st) (e_prev st)))).
  { intros [? ? ? ? ? ? Hmid]. split; try done.
    intros y t Hy. destruct (Hmid y t Hy) as [?|[?|(-> & -> & ?)]]; auto. }
  unfold e_expand.
  apply (fold_left_prefix_ind _
           (e_opt_mid graph start dst ed time airport)).
  - rewrite Epq in *. split; simpl; try done.
    + intros t a Hin. apply Hpq. by right.
    + by apply StronglySorted_inv in Hsorted as [? _].
    + apply Hpq. by left.
    + intros y t Hy. destruct (Hcl y t Hy) as [[[= -> ->]|Hin]|Hr]; auto.
      right. right. repeat split. intros f [].
  - intros done fl todo s Hsplit Hs. apply e_relax_opt_mid; [|done].
    rewrite Hsplit. apply in_or_app. right. by left.
Qed.

Lemma e_init_opt : e_opt graph start dst ed (e_init start ed).
Proof.
  split; simpl.
  - intros x f. by rewrite lookup_empty.
  - intros t a [[= <- <-]|[]]. exists ed.
    by rewrite lookup_singleton_eq.
  - repeat constructor.
  - intros x b. rewrite lookup_singleton_Some. intros [_ <-]. done.
  - exists ed. by rewrite lookup_singleton_eq.
  - intros y t. rewrite lookup_singleton_Some. intros [<- <-]. by left; left.
Qed.

(** Below the least time of the queue every arrival of a feasible path
    is already matched by a recorded time. *)
Lemma e_opt_below_head st time airport rest :
  e_opt graph start dst ed st ->
  e_pq st = (time, airport) :: rest ->
  forall p a t,
    path_ok graph start ed p ->
    match last p with
    | None => a = start /\ t = ed
    | Some l => a = dest l /\ t = arrive l
    end ->
    t < time ->
    exists b, e_best_time st !! a = Some b /\ b <= t.
Proof.
  intros Hopt Epq. induction p as [|f q IH] using rev_ind; intros a t Hp Ha Ht.
  - destruct Ha as [-> ->]. apply (eo_start _ _ _ _ _ Hopt).
  - rewrite last_snoc in Ha. destruct Ha as [-> ->].
    apply path_ok_snoc_inv in Hp as [Hq Hf].
    assert (Hdur : depart f < arrive f).
    { assert (Hin : In f (outbound graph (origin f))).
      { destruct (last q); destruct Hf as (-> & ? & _); done. }
      apply outbound_In in Hin as (fs & Hfs & Hin). by eapply Hvalid. }
    unfold MIN_LAYOVER_MINUTES in Hf.
    destruct (last q) as [l|] eqn:El.
    + destruct Hf as (Ho & Hin & Hd).
      destruct (IH (dest l) (arrive l)) as (b & Hb & Hbl); [done|done|lia|].
      destruct (eo_closed _ _ _ _ _ Hopt _ _ Hb) as [Hq'|[_ Hr]].
      { rewrite Epq in Hq'.
        pose proof (pq_sorted_head _ _ _ _ _
                      (eq_ind _ pq_sorted (eo_sorted _ _ _ _ _ Hopt) _ Epq)
                      Hq'). lia. }
      apply (Hr f Hin).
      pose proof (eo_low _ _ _ _ _ Hopt _ _ Hb).
      unfold threshold, MIN_LAYOVER_MINUTES.
      destruct (String.eqb (dest l) start); lia.
    + destruct Hf as (Ho & Hin & Hd).
      destruct (IH start ed) as (b & Hb & Hbl); [done|done|lia|].
      destruct (eo_closed _ _ _ _ _ Hopt _ _ Hb) as [Hq'|[_ Hr]].
      { rewrite Epq in Hq'.
        pose proof (pq_sorted_head _ _ _ _ _
                      (eq_ind _ pq_sorted (eo_sorted _ _ _ _ _ Hopt) _ Epq)
                      Hq'). lia. }
      apply (Hr f Hin). unfold threshold. by rewrite String.eqb_refl.
Qed.

Lemma e_loop_optimal fuel st :
  e_loop graph start dst ed fuel (e_init start ed) = Some st ->
  forall f, e_prev st !! dst = Some f ->
  forall p t, feasible_path graph start dst ed p ->
              path_arrival p = Some t -> arrive f <= t.
Proof.
  apply (e_loop_ind graph start dst ed (e_opt graph start dst ed)
           (fun s => forall f, e_prev s !! dst = Some f ->
              forall p t, feasible_path graph start dst ed p ->
                          path_arrival p = Some t -> arrive f <= t)).
  - intros s Hopt Epq f Hf. apply (eo_sync _ _ _ _ _ Hopt) in Hf.
    destruct (eo_closed _ _ _ _ _ Hopt _ _ Hf) as [Hin|[? _]]; [|done].
    by rewrite Epq in Hin.
  - intros s time rest Hopt Epq f Hf p t [Hp Hl] Ht. simpl in Hf.
    pose proof (eo_sync _ _ _ _ _ Hopt _ _ Hf) as Hb.
    pose proof (eq_ind _ pq_sorted (eo_sorted _ _ _ _ _ Hopt) _ Epq)
      as Hsorted.
    assert (Hhead : arrive f <= time).
    { destruct (eo_pq _ _ _ _ _ Hopt time dst) as (b & Hb' & Hbt).
      - rewrite Epq. by left.
      - assert (b = arrive f) by congruence. lia. }
    destruct (Z.lt_ge_cases t time) as [Hlt|Hge]; [|lia].
    unfold path_arrival, arrive_time in Ht. simpl in Ht.
    destruct (last p) as [l|] eqn:El; [|done].
    simpl in Hl, Ht. injection Hl as Hl. injection Ht as Ht.
    destruct (e_opt_below_head s time dst rest Hopt Epq p dst t)
      as (b & Hb' & Hbt); [done|by rewrite El|done|].
    destruct (eo_closed _ _ _ _ _ Hopt _ _ Hb') as [Hin|[? _]]; [|done].
    rewrite Epq in Hin.
    pose proof (pq_sorted_head _ _ _ _ _ Hsorted Hin). lia.
  - intros s time airport rest Hopt Epq Hne. by apply e_expand_opt.
  - apply e_init_opt.
Qed.
End EarliestOptimal.

Lemma e_walk_first start prev fuel cur f l :
  e_walk start fuel prev cur = Ret (Some (f :: l)) -> prev !! cur = Some f.
Proof.
  destruct fuel as [|n]; simpl; destruct (String.eqb cur start); try done.
  destruct (prev !! cur) as [fl|]; [|done].
  destruct (e_walk start n prev (origin fl)) as [[l'|]| |]; try done.
  by intros [= -> _].
Qed.

(** C3, as the code has it: on a graph whose flights all arrive after
    they depart, no feasible path from the start to the destination
    arrives strictly earlier than the itinerary that the earliest search
    returns. *)
Theorem earliest_itinerary_is_earliest (graph : Graph) (start dst : string)
  (earliest_departure : Z) (fuel : nat) (it : Itinerary) (t : Z) :
  times_valid graph ->
  find_earliest_itinerary graph start dst earliest_departure fuel
    = Ret (Some it) ->
  arrive_time it = Some t ->
  forall p t', feasible_path graph start dst earliest_departure p ->
               path_arrival p = Some t' -> t <= t'.
Proof.
  intros Hvalid H Ht p t' Hp Ht'.
  unfold find_earliest_itinerary in H.
  destruct (e_loop _ _ _ _ _ _) as [st|] eqn:Hloop; [|discriminate].
  destruct (_ && _); [discriminate|].
  apply bind_ret in H as ([l|] & Hw & [= <-]).
  unfold arrive_time in Ht. simpl in Ht.
  destruct l as [|f l]; [done|].
  simpl in Ht. rewrite last_snoc in Ht. injection Ht as <-.
  apply e_walk_first in Hw.
  by eapply e_loop_optimal.
Qed.

(** C3 as the specification words it fails when a flight arrives before
    it departs: the search stops at the direct flight, which lands at
    200, while the path through B lands at 50. *)
Lemma earliest_beaten_by_backward_flight :
  find_earliest_itinerary TimeTravel.g' "A" "C" 0 3
  = Ret (Some (mkItinerary [TimeTravel.ac]))
  /\ arrive_time (mkItinerary [TimeTravel.ac]) = Some 200
  /\ feasible_path TimeTravel.g' "A" "C" 0 [TimeTravel.ab'; TimeTravel.bc']
  /\ path_arrival [TimeTravel.ab'; TimeTravel.bc'] = Some 50.
Proof.
  split; [vm_compute; reflexivity|]. split; [done|]. split; [|done].
  split; [|done]. simpl. repeat split; try done.
  - vm_compute. auto.
  - vm_compute. auto.
Qed.

(* ===================================================================== *)
(** ** Itineraries of the earliest search keep the layover rule *)
(* ===================================================================== *)

Section EarliestFeasible.
Variable graph : Graph.
Variables start dst : string.
Variable ed : Z.
Hypothesis Hkeyed : graph_keyed graph.

Lemma e_relax_feas_mid time airport st fl :
  In fl (outbound graph airport) ->
  e_feas_mid graph start ed time airport st ->
  e_feas_mid graph start ed time airport (e_relax start ed time airport st fl).
Proof.
  intros Hin [Hinv (ba & Hba & Hle)].
  destruct (e_relax_cases start ed time airport st fl)
    as [->|(Hthr & Himp & ->)]; [by split; eauto|].
  assert (Horg : origin fl = airport).
  { apply outbound_In in Hin as (fs & Hfs & Hin'). by eapply Hkeyed. }
  destruct Hinv as [Hdest Hsync Hlink Hpq].
  assert (Hbelow : forall b, e_best_time st !! dest fl = Some b ->
                             arrive fl < b).
  { intros b Hb. destruct Himp as [Hn|(b' & Hb' & Hlt)]; congruence. }
  assert (Hpop : exists b, <[dest fl := arrive fl]> (e_best_time st) !! airport
                           = Some b /\ b <= time).
  { destruct (decide (dest fl = airport)) as [E|E].
    - exists (arrive fl). rewrite E, lookup_insert_eq.
      rewrite E in Hbelow. apply Hbelow in Hba. split; [done|lia].
    - exists ba. by rewrite lookup_insert_ne. }
  split; [split; simpl|exact Hpop].
  - intros x f. rewrite lookup_insert_Some.
    intros [[<- <-]|[_ Hx]]; [done|by apply Hdest].
  - intros x f. rewrite lookup_insert_Some.
    intros [[<- <-]|[Hx Hf]]; [by rewrite lookup_insert_eq|].
    rewrite lookup_insert_ne by done. by apply Hsync.
  - intros x f. rewrite lookup_insert_Some.
    intros [[<- <-]|[Hx Hf]].
    + rewrite Horg. split; [done|].
      destruct (String.eqb_spec airport start) as [->|Hns]; [by left|right].
      split; [done|]. destruct Hpop as (b & Hb & Hbt).
      exists b. split; [done|lia].
    + destruct (Hlink _ _ Hf) as [Hfin [?|(Hns & b & Hb & Hbd)]];
        (split; [done|]); [by left|right]. split; [done|].
      destruct (decide (dest fl = origin f)) as [E|E].
      * exists (arrive fl). rewrite <- E, lookup_insert_eq.
        rewrite <- E in Hb. apply Hbelow in Hb. split; [done|lia].
      * exists b. by rewrite lookup_insert_ne.
  - intros t a. rewrite heappush_In.
    intros [[= -> ->]|Hin'].
    + exists (arrive fl). rewrite lookup_insert_eq. split; [done|lia].
    + destruct (Hpq _ _ Hin') as (b & Hb & Hbt).
      destruct (decide (dest fl = a)) as [<-|E].
      * exists (arrive fl). rewrite lookup_insert_eq. apply Hbelow in Hb.
        split; [done|lia].
      * exists b. by rewrite lookup_insert_ne.
Qed.

Lemma e_feas_drop_pq st rest :
  e_feas graph start ed st -> (forall e, In e rest -> In e (e_pq st)) ->
  e_feas graph start ed (mkEState rest (e_best_time st) (e_prev st)).
Proof.
  intros [Hdest Hsync Hlink Hpq] Hsub. split; simpl; try done.
  intros t a Hin. by apply (Hpq t a), Hsub.
Qed.

Lemma e_loop_feas fuel st st' :
  e_feas graph start ed st ->
  e_loop graph start dst ed fuel st = Some st' ->
  e_feas graph start ed st'.
Proof.
  apply (e_loop_ind graph start dst ed
           (e_feas graph start ed) (e_feas graph start ed)).
  - done.
  - intros s time rest Hs Epq. apply e_feas_drop_pq; [done|].
    intros e He. rewrite Epq. by right.
  - intros s time airport rest Hs Epq _.
    cut (e_feas_mid graph start ed time airport
           (e_expand graph start ed time airport
              (mkEState rest (e_best_time s) (e_prev s)))).
    { by intros [? _]. }
    unfold e_expand. apply fold_left_inv.
    + split.
      * apply e_feas_drop_pq; [done|]. intros e He. rewrite Epq. by right.
      * apply (ef_pq _ _ _ _ Hs time airport). rewrite Epq. by left.
    + intros fl s' Hin Hs'. by apply e_relax_feas_mid.
Qed.

Lemma e_init_feas : e_feas graph start ed (e_init start ed).
Proof.
  split; simpl.
  - intros x f. by rewrite lookup_empty.
  - intros x f. by rewrite lookup_empty.
  - intros x f. by rewrite lookup_empty.
  - intros t a [[= <- <-]|[]]. exists ed. by rewrite lookup_singleton_eq.
Qed.

Lemma e_walk_feasible st :
  e_feas graph start ed st ->
  forall fuel cur l,
    e_walk start fuel (e_prev st) cur = Ret (Some l) ->
    match l with
    | [] => cur = start
    | f :: _ => e_prev st !! cur = Some f /\ path_ok graph start ed (rev l)
    end.
Proof.
  intros Hinv. induction fuel as [|n IH]; intros cur l; simpl;
    destruct (String.eqb_spec cur start) as [->|Hne]; try discriminate;
    try by intros [= <-].
  destruct (e_prev st !! cur) as [fl|] eqn:Hfl; [|discriminate].
  destruct (e_walk start n (e_prev st) (origin fl)) as [[l'|]| |] eqn:Hw;
    try discriminate.
  intros [= <-]. split; [done|].
  destruct (ef_link _ _ _ _ Hinv _ _ Hfl) as [Hin Hthr].
  specialize (IH _ _ Hw). destruct l' as [|f' l''].
  - rewrite IH in Hin. destruct Hthr as [[_ ?]|[? _]]; [|done].
    simpl. done.
  - destruct IH as [Hf' Hp].
    assert (Hd : dest f' = origin fl) by by apply (ef_dest _ _ _ _ Hinv).
    assert (Hlast : last (rev (f' :: l'')) = Some f').
    { simpl. by rewrite last_snoc. }
    change (rev (fl :: f' :: l'')) with (rev (f' :: l'') ++ [fl]).
    apply (path_ok_snoc _ _ _ _ f'); try done.
    + by rewrite Hd.
    + destruct Hthr as [[Hs _]|(_ & b & Hb & Hbd)].
      * rewrite Hs, e_walk_at_start in Hw. discriminate.
      * pose proof (ef_sync _ _ _ _ Hinv _ _ Hf') as Hb'.
        assert (b = arrive f') by congruence. lia.
Qed.
End EarliestFeasible.

Lemma path_ok_layovers graph p : forall s thr,
  path_ok graph s thr p ->
  layovers_ok p /\ forall f, head p = Some f -> thr <= depart f.
Proof.
  induction p as [|f p IH]; intros s thr; simpl; [done|].
  intros (_ & _ & Hthr & Hp). apply IH in Hp as [Hl Hh].
  split; [|by intros ? [= <-]].
  destruct p as [|f' p']; [done|]. split; [|done]. by apply Hh.
Qed.

(** The earliest search does keep the rule that C2 states: on a graph
    that lists every flight under its origin, an itinerary that it
    returns is a chain of flights of the graph whose first flight departs
    no earlier than the earliest departure and whose later flights each
    depart at least the minimum layover after the arrival before. *)
Lemma earliest_itinerary_feasible (graph : Graph) (start dst : string)
  (earliest_departure : Z) (fuel : nat) (it : Itinerary) :
  graph_keyed graph ->
  find_earliest_itinerary graph start dst earliest_departure fuel
    = Ret (Some it) ->
  path_ok graph start earliest_departure (flights it)
  /\ layovers_ok (flights it)
  /\ forall f, head (flights it) = Some f -> earliest_departure <= depart f.
Proof.
  intros Hkeyed H.
  unfold find_earliest_itinerary in H.
  destruct (e_loop _ _ _ _ _ _) as [st|] eqn:Hloop; [|discriminate].
  destruct (_ && _); [discriminate|].
  apply bind_ret in H as ([l|] & Hw & [= <-]). simpl.
  apply e_loop_feas in Hloop; [|done|apply e_init_feas].
  assert (Hp : path_ok graph start earliest_departure (rev l)).
  { pose proof (e_walk_feasible _ _ _ _ Hloop _ _ _ Hw) as Hl.
    destruct l; [done|]. by destruct Hl. }
  split; [done|]. by eapply path_ok_layovers.
Qed.

Module ScenarioGraph.
Import Scenario.

Lemma short_layover_no_path p :
  ~ feasible_path (build_graph short_layover) "A" "C" 420 p.
Proof.
  intros [Hp Hl]. destruct p as [|f p]; [done|].
  destruct Hp as (_ & Hf & _ & Hp).
  assert (f = ab) as ->.
  { vm_compute in Hf. by destruct Hf as [<-|[]]. }
  destruct p as [|f' p]; [done|].
  destruct Hp as (_ & Hf' & Hd & _).
  assert (f' = bc_early) as ->.
  { vm_compute in Hf'. by destruct Hf' as [<-|[]]. }
  vm_compute in Hd. by apply Hd.
Qed.

Lemma overtaken_valid : times_valid Overtaken.g1.
Proof. apply build_graph_times_valid. repeat constructor; simpl; lia. Qed.
End ScenarioGraph.

(* ===================================================================== *)
(** ** The properties of the specification *)
(* ===================================================================== *)

(** In what follows a graph is what [build_graph] makes of a collection
    of flights, as [run_compare] obtains it; the flights themselves are
    arbitrary records unless a property says otherwise. *)

(** C1 at an input where the code misses it: two flights go from A to B,
    a dear one that arrives in time for the flight from B to C and a
    cheap one that does not.  The search records only the cheap one at B,
    finds no connection from it, and returns the direct flight at 500,
    although the dear flight and the connection form a feasible path at
    110.  All the flights are validated records. *)
Theorem cheapest_overlooks_cheaper_path (fuel : nat) :
  Forall validated Overtaken.schedule1
  /\ find_cheapest_itinerary (build_graph Overtaken.schedule1) "A" "C" 0
       economy_cabin (3 + fuel)
     = Ret (Some (mkItinerary [Overtaken.ac]))
  /\ total_price (mkItinerary [Overtaken.ac]) economy_cabin = 500
  /\ feasible_path (build_graph Overtaken.schedule1) "A" "C" 0
       [Overtaken.ab_dear; Overtaken.bc]
  /\ path_price [Overtaken.ab_dear; Overtaken.bc] economy_cabin = 110.
Proof.
  split; [apply OvertakenFacts.schedule1_validated|].
  split; [|split; [done|split; [apply OvertakenFacts.dear_path_feasible|done]]].
  apply (find_cheapest_itinerary_mono _ _ _ _ _ 3%nat); [|lia].
  vm_compute. reflexivity.
Qed.

(** C2 at an input where the code misses it: the dear flight from A to B
    is relaxed first, then the cheap one replaces it as the predecessor
    of B; the queue still holds the entry of the dear flight, from which
    the flight from B to C is taken.  The walk back then pairs that
    flight with the cheap one, which lands two hours after it left.  All
    the flights are validated records. *)
Theorem cheapest_returns_missed_connection (fuel : nat) :
  Forall validated Overtaken.schedule2
  /\ find_cheapest_itinerary (build_graph Overtaken.schedule2) "A" "C" 0
       economy_cabin (3 + fuel)
     = Ret (Some (mkItinerary [Overtaken.ab_cheap; Overtaken.bc]))
  /\ ~ layovers_ok [Overtaken.ab_cheap; Overtaken.bc]
  /\ depart Overtaken.bc < arrive Overtaken.ab_cheap + MIN_LAYOVER_MINUTES.
Proof.
  split; [apply OvertakenFacts.schedule2_validated|].
  split; [|split; [|done]].
  - apply (find_cheapest_itinerary_mono _ _ _ _ _ 3%nat); [|lia].
    vm_compute. reflexivity.
  - simpl. unfold MIN_LAYOVER_MINUTES. lia.
Qed.

(** C5, as the code has it: on a graph that lists every flight under its
    own origin, when the start differs from the destination and no
    feasible chain of flights joins them (also when no flight serves the
    destination at all), the earliest search returns "no itinerary" from
    some number of loop iterations on, without raising; and so does the
    cheapest search when, in addition, the prices in the chosen cabin are
    non-negative. *)
Theorem unreachable_gives_none (graph : Graph) (start dst : string)
  (earliest_departure : Z) (cabin : Cabin) :
  graph_keyed graph ->
  start <> dst ->
  (forall p, ~ feasible_path graph start dst earliest_departure p) ->
  (exists n, forall fuel, (n <= fuel)%nat ->
     find_earliest_itinerary graph start dst earliest_departure fuel
     = Ret None)
  /\ (prices_nonneg graph cabin ->
      exists n, forall fuel, (n <= fuel)%nat ->
        find_cheapest_itinerary graph start dst earliest_departure cabin fuel
        = Ret None).
Proof.
  intros Hkeyed Hne Hnone. split.
  - by apply earliest_unreachable_none.
  - intros Hnonneg. by apply cheapest_unreachable_none.
Qed.

Lemma unreachable_gives_none_witness :
  graph_keyed (build_graph Scenario.short_layover)
  /\ "A" <> "C"
  /\ (forall p, ~ feasible_path (build_graph Scenario.short_layover)
                    "A" "C" 420 p)
  /\ prices_nonneg (build_graph Scenario.short_layover) economy_cabin
  /\ (exists n, forall fuel, (n <= fuel)%nat ->
        find_earliest_itinerary (build_graph Scenario.short_layover)
          "A" "C" 420 fuel = Ret None)
  /\ (exists n, forall fuel, (n <= fuel)%nat ->
        find_cheapest_itinerary (build_graph Scenario.short_layover)
          "A" "C" 420 economy_cabin fuel = Ret None).
Proof.
  assert (Hk : graph_keyed (build_graph Scenario.short_layover))
    by apply build_graph_keyed.
  assert (Hp : prices_nonneg (build_graph Scenario.short_layover)
                 economy_cabin)
    by (apply build_graph_prices_nonneg; repeat constructor; simpl; lia).
  assert (Hne : "A" <> "C") by discriminate.
  split; [exact Hk|]. split; [exact Hne|].
  split; [apply ScenarioGraph.short_layover_no_path|].
  split; [exact Hp|].
  split.
  - exact (proj1 (unreachable_gives_none _ "A" "C" 420 economy_cabin
                    Hk Hne ScenarioGraph.short_layover_no_path)).
  - exact (proj2 (unreachable_gives_none _ "A" "C" 420 economy_cabin
                    Hk Hne ScenarioGraph.short_layover_no_path) Hp).
Defined.

(** C5 as the specification words it fails in three ways.  On a round
    trip with negative fares (every flight under its origin, instants
    valid, no flight serving Z) the cheapest search from A to Z never
    returns.  On a graph that lists a flight from X under A (prices
    non-negative, nothing reachable from A) the cheapest search from A to
    C raises a key error.  On a graph that lists a flight from B under A
    the earliest search from A to C returns an itinerary although no
    feasible chain joins A to C. *)
Lemma unreachable_without_none :
  (graph_keyed NegativeCycle.g
   /\ times_valid NegativeCycle.g
   /\ "A" <> "Z"
   /\ (forall p, ~ feasible_path NegativeCycle.g "A" "Z" 0 p)
   /\ forall fuel,
        find_cheapest_itinerary NegativeCycle.g "A" "Z" 0 economy_cabin fuel
        = OutOfFuel)
  /\ (prices_nonneg Misfiled.g_key economy_cabin
      /\ "A" <> "C"
      /\ (forall p, ~ feasible_path Misfiled.g_key "A" "C" 0 p)
      /\ forall fuel, (2 <= fuel)%nat ->
           find_cheapest_itinerary Misfiled.g_key "A" "C" 0 economy_cabin
             fuel = Raise (KeyError "X"))
  /\ (times_valid Misfiled.g_early
      /\ "A" <> "C"
      /\ (forall p, ~ feasible_path Misfiled.g_early "A" "C" 0 p)
      /\ forall fuel, (2 <= fuel)%nat ->
           find_earliest_itinerary Misfiled.g_early "A" "C" 0 fuel
           = Ret (Some (mkItinerary [Misfiled.ab; Misfiled.bc]))).
Proof.
  split; [|split].
  - split; [apply NegativeCycleFacts.negative_cycle_keyed|].
    split; [apply NegativeCycleFacts.g_times_valid|].
    split; [done|].
    split; [apply negative_cycle_no_path_to_Z|].
    apply NegativeCycleFacts.cheapest_runs_on.
  - split; [apply MisfiledFacts.g_key_prices_nonneg|].
    split; [done|].
    split; [apply MisfiledFacts.g_key_no_path|].
    apply MisfiledFacts.cheapest_key_error.
  - split; [apply MisfiledFacts.g_early_times_valid|].
    split; [done|].
    split; [apply MisfiledFacts.g_early_no_path|].
    apply MisfiledFacts.earliest_misfiled_itinerary.
Qed.

(** C6, as the code has it: on a graph that lists every flight under its
    own origin and whose prices in the chosen cabin are non-negative,
    when the loop of the cheapest search ends with the destination in the
    predecessor map, the backward walk returns: from some number of steps
    on it yields the same list of flights, so it meets no missing key
    and reaches the start. *)
Theorem cheapest_walk_reaches_start (graph : Graph) (start dst : string)
  (earliest_departure : Z) (cabin : Cabin) (fuel : nat) (st : CState) :
  graph_keyed graph ->
  prices_nonneg graph cabin ->
  c_loop graph start dst earliest_departure cabin fuel
    (c_init start earliest_departure) = Some st ->
  is_Some (c_prev st !! dst) ->
  exists n l, forall k, (n <= k)%nat ->
    c_walk start k (c_prev st) dst = Ret l.
Proof.
  intros Hkeyed Hnonneg Hloop [f Hf].
  apply c_loop_inv in Hloop; [|done|done|by apply c_init_inv].
  apply c_walk_reaches, (ci_reach _ _ _ Hloop).
  destruct (ci_link _ _ _ Hloop _ _ Hf) as (c & _ & Hc & _). eauto.
Qed.

Lemma cheapest_walk_reaches_start_witness :
  exists st,
    graph_keyed (build_graph Scenario.two_legs)
    /\ prices_nonneg (build_graph Scenario.two_legs) economy_cabin
    /\ c_loop (build_graph Scenario.two_legs) "A" "C" 420
         economy_cabin 3 (c_init "A" 420) = Some st
    /\ is_Some (c_prev st !! "C")
    /\ exists n l, forall k, (n <= k)%nat ->
         c_walk "A" k (c_prev st) "C" = Ret l.
Proof.
  assert (E : exists st,
            c_loop (build_graph Scenario.two_legs) "A" "C" 420
              economy_cabin 3 (c_init "A" 420) = Some st
            /\ is_Some (c_prev st !! "C")).
  { eexists. split; [vm_compute; reflexivity|]. vm_compute. eauto. }
  assert (Hk : graph_keyed (build_graph Scenario.two_legs))
    by apply build_graph_keyed.
  assert (Hp : prices_nonneg (build_graph Scenario.two_legs) economy_cabin)
    by (apply build_graph_prices_nonneg; repeat constructor; simpl; lia).
  destruct E as (st & Hloop & Hdst). exists st.
  split; [exact Hk|]. split; [exact Hp|].
  split; [exact Hloop|]. split; [exact Hdst|].
  exact (cheapest_walk_reaches_start _ "A" "C" 420
           economy_cabin 3 st Hk Hp Hloop Hdst).
Defined.

(** C6 as the specification words it fails on graphs that list a flight
    under another airport than its origin, all prices being non-negative.
    With a flight from X listed under A, the loop of the cheapest search
    from A to C ends with C in the predecessor map and the backward walk
    then meets the missing key X.  With a flight from C to C listed under
    A, the loop ends with C as its own predecessor and the backward walk
    never reaches A. *)
Lemma cheapest_walk_can_fail :
  (prices_nonneg Misfiled.g_key economy_cabin
   /\ exists st,
        c_loop Misfiled.g_key "A" "C" 0 economy_cabin 1 (c_init "A" 0)
        = Some st
        /\ is_Some (c_prev st !! "C")
        /\ (forall k, c_walk "A" (S (S k)) (c_prev st) "C"
                      = Raise (KeyError "X"))
        /\ forall fuel, (2 <= fuel)%nat ->
             find_cheapest_itinerary Misfiled.g_key "A" "C" 0 economy_cabin
               fuel = Raise (KeyError "X"))
  /\ (prices_nonneg Misfiled.g_loop economy_cabin
      /\ exists st,
           c_loop Misfiled.g_loop "A" "C" 0 economy_cabin 1 (c_init "A" 0)
           = Some st
           /\ is_Some (c_prev st !! "C")
           /\ forall k, c_walk "A" k (c_prev st) "C" = OutOfFuel).
Proof.
  split.
  - split; [apply MisfiledFacts.g_key_prices_nonneg|].
    destruct MisfiledFacts.g_key_loop_ends as (st & Hloop & HC & HX).
    exists st. split; [done|]. split; [by rewrite HC|]. split.
    + by apply MisfiledFacts.g_key_walk.
    + apply MisfiledFacts.cheapest_key_error.
  - split; [apply MisfiledFacts.g_loop_prices_nonneg|].
    destruct MisfiledFacts.g_loop_c_loop_ends as (st & Hloop & HC).
    exists st. split; [done|]. split; [by rewrite HC|].
    by apply MisfiledFacts.c_walk_spins.
Qed.

(** C10, as the code has it: on a finite graph that lists every flight
    under its own origin, each search ends whatever the other arguments,
    the earliest search when every flight arrives after it departs and
    the cheapest search when the prices in the chosen cabin are
    non-negative: from some number of loop iterations on, the search
    returns its result, the queue loop and the backward walk both having
    completed. *)
Theorem searches_terminate (graph : Graph) (start dst : string)
  (earliest_departure : Z) (cabin : Cabin) :
  graph_keyed graph ->
  (times_valid graph ->
   exists n re, forall fuel, (n <= fuel)%nat ->
     find_earliest_itinerary graph start dst earliest_departure fuel
     = Ret re)
  /\ (prices_nonneg graph cabin ->
      exists n rc, forall fuel, (n <= fuel)%nat ->
        find_cheapest_itinerary graph start dst earliest_departure cabin fuel
        = Ret rc).
Proof.
  intros Hkeyed. split.
  - intros Hvalid. by apply earliest_terminates.
  - intros Hnonneg. by apply cheapest_terminates.
Qed.

Lemma searches_terminate_witness :
  graph_keyed (build_graph Scenario.two_legs)
  /\ times_valid (build_graph Scenario.two_legs)
  /\ prices_nonneg (build_graph Scenario.two_legs) economy_cabin
  /\ (exists n re, forall fuel, (n <= fuel)%nat ->
        find_earliest_itinerary (build_graph Scenario.two_legs)
          "A" "C" 420 fuel = Ret re)
  /\ (exists n rc, forall fuel, (n <= fuel)%nat ->
        find_cheapest_itinerary (build_graph Scenario.two_legs)
          "A" "C" 420 economy_cabin fuel = Ret rc).
Proof.
  assert (Hk : graph_keyed (build_graph Scenario.two_legs))
    by apply build_graph_keyed.
  assert (Ht : times_valid (build_graph Scenario.two_legs))
    by (apply build_graph_times_valid; repeat constructor; simpl; lia).
  assert (Hp : prices_nonneg (build_graph Scenario.two_legs) economy_cabin)
    by (apply build_graph_prices_nonneg; repeat constructor; simpl; lia).
  split; [exact Hk|]. split; [exact Ht|]. split; [exact Hp|].
  split.
  - exact (proj1 (searches_terminate _ "A" "C" 420 economy_cabin Hk) Ht).
  - exact (proj2 (searches_terminate _ "A" "C" 420 economy_cabin Hk) Hp).
Defined.

(** C10 as the specification words it fails on graphs that the searches
    accept.  The earliest search runs on in its backward walk with
    flights that arrive before they depart (each under its origin,
    prices positive), and with a flight from C to C listed under A
    (instants valid).  The cheapest search runs on in its queue loop on a
    round trip of negative fares (each flight under its origin, instants
    valid), and in its backward walk with a flight from C to C listed
    under A (prices non-negative). *)
Lemma searches_can_run_on :
  (graph_keyed TimeTravel.g
   /\ prices_nonneg TimeTravel.g economy_cabin
   /\ forall fuel,
        find_earliest_itinerary TimeTravel.g "A" "D" 0 fuel = OutOfFuel)
  /\ (times_valid Misfiled.g_loop
      /\ prices_nonneg Misfiled.g_loop economy_cabin
      /\ forall fuel,
           find_earliest_itinerary Misfiled.g_loop "A" "C" 0 fuel
           = OutOfFuel)
  /\ (graph_keyed NegativeCycle.g
      /\ times_valid NegativeCycle.g
      /\ forall fuel,
           find_cheapest_itinerary NegativeCycle.g "A" "Z" 0 economy_cabin
             fuel = OutOfFuel)
  /\ (times_valid Misfiled.g_loop
      /\ prices_nonneg Misfiled.g_loop economy_cabin
      /\ forall fuel,
           find_cheapest_itinerary Misfiled.g_loop "A" "C" 0 economy_cabin
             fuel = OutOfFuel).
Proof.
  split; [|split; [|split]].
  - split; [apply TimeTravelFacts.time_travel_keyed|].
    split; [|apply TimeTravelFacts.earliest_runs_on].
    apply build_graph_prices_nonneg. repeat constructor; simpl; lia.
  - split; [apply MisfiledFacts.g_loop_times_valid|].
    split; [apply MisfiledFacts.g_loop_prices_nonneg|].
    apply MisfiledFacts.earliest_walk_runs_on.
  - split; [apply NegativeCycleFacts.negative_cycle_keyed|].
    split; [apply NegativeCycleFacts.g_times_valid|].
    apply NegativeCycleFacts.cheapest_runs_on.
  - split; [apply MisfiledFacts.g_loop_times_valid|].
    split; [apply MisfiledFacts.g_loop_prices_nonneg|].
    apply MisfiledFacts.cheapest_walk_runs_on.
Qed.

Lemma earliest_itinerary_is_earliest_witness :
  times_valid Overtaken.g1
  /\ find_earliest_itinerary Overtaken.g1 "A" "C" 0 3
     = Ret (Some (mkItinerary [Overtaken.ac]))
  /\ arrive_time (mkItinerary [Overtaken.ac]) = Some 600
  /\ feasible_path Overtaken.g1 "A" "C" 0 [Overtaken.ab_dear; Overtaken.bc]
  /\ path_arrival [Overtaken.ab_dear; Overtaken.bc] = Some 660
  /\ 600 <= 660.
Proof.
  assert (H1 : find_earliest_itinerary Overtaken.g1 "A" "C" 0 3
               = Ret (Some (mkItinerary [Overtaken.ac])))
    by (vm_compute; reflexivity).
  assert (H2 : arrive_time (mkItinerary [Overtaken.ac]) = Some 600)
    by reflexivity.
  assert (H3 : path_arrival [Overtaken.ab_dear; Overtaken.bc] = Some 660)
    by reflexivity.
  split; [apply ScenarioGraph.overtaken_valid|].
  split; [exact H1|]. split; [exact H2|].
  split; [apply OvertakenFacts.dear_path_feasible|]. split; [exact H3|].
  exact (earliest_itinerary_is_earliest Overtaken.g1 "A" "C" 0 3
           (mkItinerary [Overtaken.ac]) 600
           ScenarioGraph.overtaken_valid H1 H2
           [Overtaken.ab_dear; Overtaken.bc] 660
           OvertakenFacts.dear_path_feasible H3).
Defined.

Lemma returned_itinerary_chains_witness :
  find_earliest_itinerary (build_graph Scenario.two_legs) "A" "C"
    420 3 = Ret (Some (mkItinerary [Scenario.ab; Scenario.bc]))
  /\ chained [Scenario.ab; Scenario.bc]
  /\ (forall f, head [Scenario.ab; Scenario.bc] = Some f -> origin f = "A")
  /\ (forall f, last [Scenario.ab; Scenario.bc] = Some f -> dest f = "C").
Proof.
  assert (H : find_earliest_itinerary (build_graph Scenario.two_legs)
                "A" "C" 420 3
              = Ret (Some (mkItinerary [Scenario.ab; Scenario.bc])))
    by (vm_compute; reflexivity).
  split; [exact H|].
  exact (returned_itinerary_chains _ "A" "C" 420 economy_cabin 3
           (mkItinerary [Scenario.ab; Scenario.bc]) (or_introl H)).
Defined.

(* ===================================================================== *)
(** ** Time helpers *)
(* ===================================================================== *)

(** X1: [parse_time] either returns an instant of the day, in [0, 1440),
    or raises [ValueError]; it raises nothing else. *)
Theorem parse_time_outcome (hhmm : string) :
  (exists t, parse_time hhmm = Ret t /\ 0 <= t < 1440)
  \/ exists msg, parse_time hhmm = Raise (ValueError msg).
Proof.
  unfold parse_time.
  destruct (negb (contains_char ":" hhmm)); [right; eauto|].
  destruct (split_on ":" hhmm) as [|h [|m [|? ?]]]; try (right; eauto; fail).
  destruct (py_int h) as [hv|]; [|right; eauto].
  destruct (py_int m) as [mv|]; [|right; eauto].
  destruct (negb _) eqn:E; [right; eauto|left].
  eexists. split; [done|]. apply negb_false_iff in E.
  repeat (apply andb_true_iff in E; destruct E as [E ?]). lia.
Qed.

Lemma parse_format_all_day :
  forallb (fun n => match parse_time (format_time (Z.of_nat n)) with
                    | Ret t => t =? Z.of_nat n
                    | _ => false
                    end) (seq 0 1440) = true.
Proof. vm_compute. reflexivity. Qed.

(** X2: [format_time] and [parse_time] round-trip on the instants of a
    day: for [0 <= minutes < 1440], parsing the formatted text gives the
    instant back. *)
Theorem parse_time_format_time (minutes : Z) :
  0 <= minutes < 1440 -> parse_time (format_time minutes) = Ret minutes.
Proof.
  intros Hm. pose proof parse_format_all_day as H.
  rewrite forallb_forall in H.
  specialize (H (Z.to_nat minutes)).
  rewrite Z2Nat.id in H by lia.
  assert (Hin : In (Z.to_nat minutes) (seq 0 1440)) by (apply in_seq; lia).
  apply H in Hin.
  destruct (parse_time (format_time minutes)) as [t| |]; try discriminate.
  apply Z.eqb_eq in Hin. by subst.
Qed.

Lemma parse_time_format_time_witness :
  0 <= 485 < 1440 /\ parse_time (format_time 485) = Ret 485.
Proof.
  split; [lia|]. apply (parse_time_format_time 485). lia.
Defined.

(* ===================================================================== *)
(** ** The graph as a filter of the flights *)
(* ===================================================================== *)

(** X3: [build_graph] files under each airport exactly the flights that
    leave it, in the order of the input, and has no key for an airport
    that no flight leaves; so [graph.get(k, [])] is the input filtered by
    origin. *)
Theorem build_graph_lookup_filter (fs : list Flight) (k : string) :
  build_graph fs !! k
  = match filter (fun f => origin f = k) fs with
    | [] => None
    | l => Some l
    end
  /\ outbound (build_graph fs) k = filter (fun f => origin f = k) fs.
Proof.
  cut (build_graph fs !! k
       = match filter (fun f => origin f = k) fs with
         | [] => None
         | l => Some l
         end).
  { intros H. split; [done|]. unfold outbound. rewrite H.
    by destruct (filter _ fs). }
  induction fs as [|f fs IH] using rev_ind.
  - unfold build_graph; simpl. by rewrite lookup_empty.
  - rewrite build_graph_snoc, filter_app.
    destruct (decide (origin f = k)) as [E|E].
    + rewrite E, lookup_insert_eq. unfold outbound. rewrite IH.
      rewrite (filter_cons_True _ f []) by done.
      rewrite filter_nil.
      by destruct (filter (fun f0 => origin f0 = k) fs).
    + rewrite lookup_insert_ne by done.
      rewrite (filter_cons_False _ f []) by done.
      rewrite filter_nil, app_nil_r. exact IH.
Qed.

(* ===================================================================== *)
(** ** What a text file loads to *)
(* ===================================================================== *)

Lemma load_lines_txt_ret path lines : forall i acc fs,
  load_lines_txt path i lines acc = Ret fs
  <-> Forall (fun line => exists o, parse_flight_line_txt line = Ret o) lines
      /\ fs = acc ++ line_flights lines.
Proof.
  induction lines as [|line rest IH]; intros i acc fs; simpl.
  - rewrite app_nil_r. split; [intros [= <-]; by split|].
    intros [_ ->]. done.
  - unfold line_flights; simpl.
    destruct (parse_flight_line_txt line) as [[fl|]|[]|] eqn:E.
    + rewrite IH. unfold line_flights. rewrite <- app_assoc. simpl.
      split; intros [Hall ->]; (split; [|done]).
      * constructor; [eauto|done].
      * by inversion Hall.
    + rewrite IH. unfold line_flights.
      split; intros [Hall ->]; (split; [|done]).
      * constructor; [eauto|done].
      * by inversion Hall.
    + split; [done|]. intros [Hall _]. inversion Hall as [|? ? [o Ho] _].
      congruence.
    + split; [done|]. intros [Hall _]. inversion Hall as [|? ? [o Ho] _].
      congruence.
    + split; [done|]. intros [Hall _]. inversion Hall as [|? ? [o Ho] _].
      congruence.
    + split; [done|]. intros [Hall _]. inversion Hall as [|? ? [o Ho] _].
      congruence.
Qed.

(** X4: [load_flights_txt] returns a list exactly when every line is a
    flight line, a blank line or a comment; the list then holds the
    flights of the flight lines, in the order of the file. *)
Theorem load_flights_txt_ret (path : string) (lines : list string)
  (fs : list Flight) :
  load_flights_txt path lines = Ret fs
  <-> Forall (fun line => exists o, parse_flight_line_txt line = Ret o) lines
      /\ fs = line_flights lines.
Proof. unfold load_flights_txt. by rewrite load_lines_txt_ret. Qed.

Lemma load_lines_txt_first_error path good bad rest msg : forall i acc,
  Forall (fun line => exists o, parse_flight_line_txt line = Ret o) good ->
  parse_flight_line_txt bad = Raise (ValueError msg) ->
  load_lines_txt path i (good ++ bad :: rest) acc
  = Raise (ValueError (path +:+ ":" +:+ pretty (i + length good)%nat
                       +:+ ": " +:+ msg)).
Proof.
  induction good as [|line good IH]; intros i acc Hgood Hbad; simpl.
  - rewrite Hbad. by rewrite Nat.add_0_r.
  - inversion Hgood as [|? ? [o Ho] Hgood']; subst. rewrite Ho.
    replace (i + S (length good))%nat with (S i + length good)%nat by lia.
    destruct o; by apply IH.
Qed.

(** X5: when a line of a text file is malformed and the lines before it
    are not, [load_flights_txt] raises [ValueError] with the path, the
    number of that line counted from 1, and the line's own message. *)
Theorem load_flights_txt_first_error (path : string)
  (good : list string) (bad : string) (rest : list string) (msg : string) :
  Forall (fun line => exists o, parse_flight_line_txt line = Ret o) good ->
  parse_flight_line_txt bad = Raise (ValueError msg) ->
  load_flights_txt path (good ++ bad :: rest)
  = Raise (ValueError (path +:+ ":" +:+ pretty (S (length good))
                       +:+ ": " +:+ msg)).
Proof.
  intros Hgood Hbad. unfold load_flights_txt.
  by rewrite (load_lines_txt_first_error path good bad rest msg 1 []).
Qed.

Lemma load_flights_txt_first_error_witness :
  Forall (fun line => exists o, parse_flight_line_txt line = Ret o) Demo.lines
  /\ parse_flight_line_txt "A B F9 09:00 08:00 1 2 3"
     = Raise (ValueError "Arrival must be after departure")
  /\ load_flights_txt "demo.txt"
       (Demo.lines ++ "A B F9 09:00 08:00 1 2 3" :: ["never read"])
     = Raise (ValueError "demo.txt:5: Arrival must be after departure").
Proof.
  assert (Hgood : Forall (fun line => exists o,
                            parse_flight_line_txt line = Ret o) Demo.lines).
  { repeat constructor; eexists; vm_compute; reflexivity. }
  assert (Hbad : parse_flight_line_txt "A B F9 09:00 08:00 1 2 3"
                 = Raise (ValueError "Arrival must be after departure"))
    by (vm_compute; reflexivity).
  split; [exact Hgood|]. split; [exact Hbad|].
  exact (load_flights_txt_first_error "demo.txt" Demo.lines _
           ["never read"] _ Hgood Hbad).
Defined.

Lemma list_ascii_of_string_app s1 s2 :
  list_ascii_of_string (s1 +:+ s2)
  = list_ascii_of_string s1 ++ list_ascii_of_string s2.
Proof. induction s1 as [|c s1 IH]; simpl; [done|]. by rewrite IH. Qed.

Lemma lstrip_spaces ws l :
  forallb is_space ws = true -> lstrip (ws ++ l) = lstrip l.
Proof.
  induction ws as [|c ws IH]; simpl; [done|].
  intros [Hc Hws]%andb_true_iff. rewrite Hc. by apply IH.
Qed.

Lemma lstrip_snoc_mark l c :
  is_space c = false -> exists l', lstrip (l ++ [c]) = l' ++ [c].
Proof.
  intros Hc. induction l as [|d l [l' IH]]; simpl.
  - rewrite Hc. by exists [].
  - destruct (is_space d); [eauto|]. by exists (d :: l).
Qed.

Lemma strip_comment ws rest :
  forallb is_space (list_ascii_of_string ws) = true ->
  exists tail, strip (ws +:+ "#" +:+ rest) = String "#" tail.
Proof.
  intros Hws. unfold strip.
  rewrite !list_ascii_of_string_app, lstrip_spaces by done. simpl.
  destruct (lstrip_snoc_mark (rev (list_ascii_of_string rest)) "#" eq_refl)
    as [l' Hl'].
  rewrite Hl', rev_app_distr. simpl. eauto.
Qed.

Lemma strip_blank line :
  forallb is_space (list_ascii_of_string line) = true -> strip line = "".
Proof.
  intros Hws. unfold strip.
  rewrite <- (app_nil_r (list_ascii_of_string line)).
  by rewrite lstrip_spaces.
Qed.

(** X6: a line of blanks, and a line whose first character after any
    leading blanks is [#], are skipped: [parse_flight_line_txt] returns
    [None] for them whatever follows the [#]. *)
Theorem parse_flight_line_txt_skips (ws rest : string) :
  forallb is_space (list_ascii_of_string ws) = true ->
  parse_flight_line_txt ws = Ret None
  /\ parse_flight_line_txt (ws +:+ "#" +:+ rest) = Ret None.
Proof.
  intros Hws. unfold parse_flight_line_txt. split.
  - by rewrite strip_blank.
  - destruct (strip_comment ws rest Hws) as [tail ->].
    assert (E : startswith "#" (String "#" tail) = true).
    { unfold startswith. simpl.
      destruct (ascii_dec "#" "#"); [by destruct tail|done]. }
    by rewrite E, orb_true_r.
Qed.

Lemma parse_flight_line_txt_skips_witness :
  forallb is_space (list_ascii_of_string "   ") = true
  /\ parse_flight_line_txt "   " = Ret None
  /\ parse_flight_line_txt ("   " +:+ "#" +:+ " A B F1 08:00 09:00 1 2 3")
     = Ret None.
Proof.
  split; [reflexivity|].
  apply (parse_flight_line_txt_skips "   " " A B F1 08:00 09:00 1 2 3").
  reflexivity.
Defined.

(* ===================================================================== *)
(** ** The CSV reader *)
(* ===================================================================== *)

(** X7: when one of the eight required columns is missing from the header,
    [load_flights_csv] raises [ValueError] before it reads any record. *)
Theorem load_flights_csv_missing_column (table : CsvTable) (k : string) :
  In k required_columns -> ~ In k (fieldnames table) ->
  load_flights_csv table = Raise (ValueError "Missing required CSV columns").
Proof.
  intros Hk Hmiss. unfold load_flights_csv.
  destruct (forallb _ required_columns) eqn:E; [|done].
  rewrite forallb_forall in E. apply E in Hk.
  apply bool_decide_eq_true_1, list_elem_of_In in Hk. done.
Qed.

Lemma load_flights_csv_missing_column_witness :
  In "first" required_columns
  /\ ~ In "first" ["origin"; "dest"; "flight_number"; "depart"; "arrive";
                   "economy"; "business"]
  /\ load_flights_csv
       (mkCsvTable ["origin"; "dest"; "flight_number"; "depart"; "arrive";
                    "economy"; "business"] [Demo.row])
     = Raise (ValueError "Missing required CSV columns").
Proof.
  assert (Hin : In "first" required_columns) by (simpl; tauto).
  assert (Hnot : ~ In "first" ["origin"; "dest"; "flight_number"; "depart";
                               "arrive"; "economy"; "business"]).
  { simpl. intros H. repeat (destruct H as [H|H]; [discriminate|]). done. }
  split; [exact Hin|]. split; [exact Hnot|].
  exact (load_flights_csv_missing_column
           (mkCsvTable ["origin"; "dest"; "flight_number"; "depart"; "arrive";
                        "economy"; "business"] [Demo.row])
           "first" Hin Hnot).
Defined.

(** X8: the two readers agree on a line that is not a comment: a text
    line that does not start with [#] and whose eight fields are the cells
    of a complete CSV record gives the same flight as the record, and
    fails with the same error when the record does.  (A line whose first
    field starts with [#] is a comment for the text reader only.) *)
Theorem txt_line_agrees_with_csv_row (line : string)
  (row : string -> string) :
  startswith "#" (strip line) = false ->
  split_ws (strip line)
  = [row "origin"; row "dest"; row "flight_number"; row "depart";
     row "arrive"; row "economy"; row "business"; row "first"] ->
  parse_flight_line_txt line = (fl ← load_row_csv row; Ret (Some fl)).
Proof.
  intros Hc Hs.
  unfold parse_flight_line_txt, load_row_csv, cell.
  rewrite Hc, Hs.
  destruct (String.eqb_spec (strip line) "") as [E|_].
  { rewrite E in Hs. discriminate. }
  simpl.
  destruct (parse_time (row "depart")) as [dv| |]; simpl; try done.
  destruct (parse_time (row "arrive")) as [av| |]; simpl; try done.
  destruct (av <=? dv); simpl; [done|].
  destruct (int_of (row "economy")); simpl; try done.
  destruct (int_of (row "business")); simpl; try done.
  destruct (int_of (row "first")); simpl; done.
Qed.

Lemma txt_line_agrees_with_csv_row_witness :
  startswith "#" (strip "A B F1 08:00 09:00 100 200 300") = false
  /\ parse_flight_line_txt "A B F1 08:00 09:00 100 200 300"
     = (fl ← load_row_csv Demo.row; Ret (Some fl)).
Proof.
  split; [vm_compute; reflexivity|].
  apply (txt_line_agrees_with_csv_row _ Demo.row); vm_compute; reflexivity.
Defined.

(* ===================================================================== *)
(** ** More on the itineraries that the searches return *)
(* ===================================================================== *)

Lemma path_ok_flights graph p : forall s thr,
  path_ok graph s thr p -> Forall (fun f => In f (outbound graph (origin f))) p.
Proof.
  induction p as [|f p IH]; intros s thr; simpl; [constructor|].
  intros (<- & Hin & _ & Hp). constructor; [done|by eapply IH].
Qed.

Lemma build_graph_outbound fs k f :
  In f (outbound (build_graph fs) k) -> In f fs.
Proof.
  intros (l & Hl & Hin)%outbound_In.
  by destruct (build_graph_lookup _ _ _ _ Hl Hin).
Qed.

(** X9: an itinerary that the earliest search returns is feasible: its
    flights are flights of the input, the first one departs no earlier
    than the earliest departure, and every later one departs at least 60
    minutes after the arrival of the one before it. *)
Theorem earliest_itinerary_respects_layovers (fs : list Flight)
  (start dst : string) (earliest_departure : Z) (fuel : nat)
  (it : Itinerary) :
  find_earliest_itinerary (build_graph fs) start dst earliest_departure fuel
    = Ret (Some it) ->
  Forall (fun f => In f fs) (flights it)
  /\ layovers_ok (flights it)
  /\ forall f, head (flights it) = Some f -> earliest_departure <= depart f.
Proof.
  intros H.
  apply earliest_itinerary_feasible in H as (Hp & Hl & Hh);
    [|apply build_graph_keyed].
  split; [|by split].
  apply path_ok_flights in Hp. eapply Forall_impl; [exact Hp|].
  intros f Hf. simpl in Hf. exact (build_graph_outbound _ _ _ Hf).
Qed.

Lemma earliest_itinerary_respects_layovers_witness :
  find_earliest_itinerary (build_graph Scenario.two_legs) "A" "C" 420 3
    = Ret (Some (mkItinerary [Scenario.ab; Scenario.bc]))
  /\ Forall (fun f => In f Scenario.two_legs) [Scenario.ab; Scenario.bc]
  /\ layovers_ok [Scenario.ab; Scenario.bc]
  /\ forall f, head [Scenario.ab; Scenario.bc] = Some f -> 420 <= depart f.
Proof.
  assert (H : find_earliest_itinerary (build_graph Scenario.two_legs)
                "A" "C" 420 3
              = Ret (Some (mkItinerary [Scenario.ab; Scenario.bc])))
    by (vm_compute; reflexivity).
  split; [exact H|].
  exact (earliest_itinerary_respects_layovers Scenario.two_legs "A" "C" 420 3
           (mkItinerary [Scenario.ab; Scenario.bc]) H).
Defined.

Section CheapestFromGraph.
Variable graph : Graph.
Variables start dst : string.
Variable ed : Z.
Variable cabin : Cabin.
Hypothesis Hkeyed : graph_keyed graph.

Lemma c_loop_from_graph fuel st st' :
  c_from_graph graph start ed st ->
  c_loop graph start dst ed cabin fuel st = Some st' ->
  c_from_graph graph start ed st'.
Proof.
  apply (c_loop_ind graph start dst ed cabin
           (c_from_graph graph start ed) (c_from_graph graph start ed));
    try done.
  intros s cost time airport rest Hs Epq _. unfold c_expand.
  apply fold_left_inv; [done|].
  intros fl s' Hin Hs'.
  destruct (c_relax_cases start ed cabin cost time airport s' fl)
    as [->|(Hthr & _ & ->)]; [done|].
  assert (Horg : origin fl = airport).
  { apply outbound_In in Hin as (l & Hl & Hin'). by eapply Hkeyed. }
  intros x f. simpl. rewrite lookup_insert_Some.
  intros [[<- <-]|[_ Hf]]; [|exact (Hs' _ _ Hf)].
  rewrite Horg. split; [done|]. intros ->.
  by rewrite String.eqb_refl in Hthr.
Qed.

Lemma c_walk_values prev : forall fuel cur l,
  c_walk start fuel prev cur = Ret l ->
  Forall (fun f => exists x, prev !! x = Some f) l.
Proof.
  induction fuel as [|n IH]; intros cur l; simpl;
    destruct (String.eqb cur start); try discriminate;
    try (intros [= <-]; constructor).
  destruct (prev !! cur) as [fl|] eqn:Hfl; [|discriminate].
  destruct (c_walk start n prev (origin fl)) as [l'| |] eqn:Hw;
    try discriminate.
  simpl. intros [= <-]. constructor; [eauto|by eapply IH].
Qed.
End CheapestFromGraph.

(** X10: what the cheapest search does keep of feasibility: the flights
    of an itinerary that it returns are flights of the input, and the
    first one departs no earlier than the earliest departure. *)
Theorem cheapest_itinerary_from_flights (fs : list Flight)
  (start dst : string) (earliest_departure : Z) (cabin : Cabin)
  (fuel : nat) (it : Itinerary) :
  find_cheapest_itinerary (build_graph fs) start dst earliest_departure
    cabin fuel = Ret (Some it) ->
  Forall (fun f => In f fs) (flights it)
  /\ forall f, head (flights it) = Some f -> earliest_departure <= depart f.
Proof.
  intros H. unfold find_cheapest_itinerary in H.
  destruct (c_loop _ _ _ _ _ _ _) as [st|] eqn:Hloop; [|discriminate].
  destruct (bool_decide _); [discriminate|].
  apply bind_ret in H as (l & Hw & [= <-]). simpl.
  assert (Hdest : prev_by_dest (c_prev st)).
  { eapply c_loop_prev_by_dest; [|exact Hloop].
    intros x f. simpl. by rewrite lookup_empty. }
  apply c_loop_from_graph in Hloop;
    [|apply build_graph_keyed|by intros x f; simpl; rewrite lookup_empty].
  pose proof (c_walk_values _ _ _ _ _ Hw) as Hval.
  assert (Hall : Forall (fun f => In f (outbound (build_graph fs) (origin f))
                                  /\ (origin f = start ->
                                      earliest_departure <= depart f)) (rev l)).
  { apply Forall_rev. eapply Forall_impl; [exact Hval|].
    intros f [x Hx]. exact (Hloop _ _ Hx). }
  split.
  - eapply Forall_impl; [exact Hall|].
    intros f [Hf _]. exact (build_graph_outbound _ _ _ Hf).
  - intros f Hf.
    pose proof (c_walk_shape _ _ Hdest _ _ _ Hw) as Hshape.
    apply walk_shape_rev, path_shape_chained in Hshape as (_ & Hh & _).
    pose proof (Hh _ Hf) as Hs.
    destruct (rev l) as [|g r]; [done|]. injection Hf as ->.
    inversion Hall as [|? ? [_ Hd] _]; subst. by apply Hd.
Qed.

Lemma cheapest_itinerary_from_flights_witness :
  find_cheapest_itinerary (build_graph Overtaken.schedule2) "A" "C" 0
    economy_cabin 3
  = Ret (Some (mkItinerary [Overtaken.ab_cheap; Overtaken.bc]))
  /\ Forall (fun f => In f Overtaken.schedule2)
       [Overtaken.ab_cheap; Overtaken.bc]
  /\ forall f, head [Overtaken.ab_cheap; Overtaken.bc] = Some f ->
               0 <= depart f.
Proof.
  assert (H : find_cheapest_itinerary (build_graph Overtaken.schedule2)
                "A" "C" 0 economy_cabin 3
              = Ret (Some (mkItinerary [Overtaken.ab_cheap; Overtaken.bc])))
    by (vm_compute; reflexivity).
  split; [exact H|].
  exact (cheapest_itinerary_from_flights Overtaken.schedule2 "A" "C" 0
           economy_cabin 3
           (mkItinerary [Overtaken.ab_cheap; Overtaken.bc]) H).
Defined.

(* ===================================================================== *)
(** ** The earliest search finds an itinerary whenever there is a path *)
(* ===================================================================== *)

Section EarliestComplete.
Variable graph : Graph.
Variables start dst : string.
Variable ed : Z.
Hypothesis Hvalid : times_valid graph.

(** Once the queue is empty, every airport that a feasible path reaches
    has a recorded time. *)
Lemma e_opt_empty_reaches st :
  e_opt graph start dst ed st ->
  e_pq st = [] ->
  forall p a t,
    path_ok graph start ed p ->
    match last p with
    | None => a = start /\ t = ed
    | Some l => a = dest l /\ t = arrive l
    end ->
    exists b, e_best_time st !! a = Some b /\ b <= t.
Proof.
  intros Hopt Epq. induction p as [|f q IH] using rev_ind; intros a t Hp Ha.
  - destruct Ha as [-> ->]. apply (eo_start _ _ _ _ _ Hopt).
  - rewrite last_snoc in Ha. destruct Ha as [-> ->].
    apply path_ok_snoc_inv in Hp as [Hq Hf].
    unfold MIN_LAYOVER_MINUTES in Hf.
    destruct (last q) as [l|] eqn:El.
    + destruct Hf as (Ho & Hin & Hd).
      destruct (IH (dest l) (arrive l)) as (b & Hb & Hbl); [done|done|].
      destruct (eo_closed _ _ _ _ _ Hopt _ _ Hb) as [Hq'|[_ Hr]].
      { by rewrite Epq in Hq'. }
      apply (Hr f Hin).
      pose proof (eo_low _ _ _ _ _ Hopt _ _ Hb).
      unfold threshold, MIN_LAYOVER_MINUTES.
      destruct (String.eqb (dest l) start); lia.
    + destruct Hf as (Ho & Hin & Hd).
      destruct (IH start ed) as (b & Hb & Hbl); [done|done|].
      destruct (eo_closed _ _ _ _ _ Hopt _ _ Hb) as [Hq'|[_ Hr]].
      { by rewrite Epq in Hq'. }
      apply (Hr f Hin). unfold threshold. by rewrite String.eqb_refl.
Qed.

Lemma e_loop_reaches_destination fuel st :
  e_loop graph start dst ed fuel (e_init start ed) = Some st ->
  (exists p, feasible_path graph start dst ed p) ->
  is_Some (e_best_time st !! dst).
Proof.
  apply (e_loop_ind graph start dst ed (e_opt graph start dst ed)
           (fun s => (exists p, feasible_path graph start dst ed p) ->
                     is_Some (e_best_time s !! dst))).
  - intros s Hopt Epq (p & Hp & Hl).
    destruct (last p) as [l|] eqn:El; [|done].
    injection Hl as Hl.
    destruct (e_opt_empty_reaches s Hopt Epq p dst (arrive l))
      as (b & Hb & _); [done|by rewrite El|].
    destruct (eo_closed _ _ _ _ _ Hopt _ _ Hb) as [Hin|[? _]]; [|done].
    by rewrite Epq in Hin.
  - intros s time rest Hopt Epq _. simpl.
    destruct (eo_pq _ _ _ _ _ Hopt time dst) as (b & Hb & _); [|eauto].
    rewrite Epq. by left.
  - intros s time airport rest Hopt Epq Hne. by apply e_expand_opt.
  - by apply e_init_opt.
Qed.
End EarliestComplete.

(** X11: for flights that arrive after they depart, whenever some
    feasible path joins the start to a different destination, the
    earliest search returns an itinerary: from some number of loop
    iterations on its result is that itinerary and not "no itinerary". *)
Theorem earliest_finds_reachable (fs : list Flight) (start dst : string)
  (earliest_departure : Z) (p : list Flight) :
  Forall (fun f => depart f < arrive f) fs ->
  start <> dst ->
  feasible_path (build_graph fs) start dst earliest_departure p ->
  exists n it, forall fuel, (n <= fuel)%nat ->
    find_earliest_itinerary (build_graph fs) start dst earliest_departure fuel
    = Ret (Some it).
Proof.
  intros Htime Hne Hp.
  pose proof (build_graph_keyed fs) as Hkeyed.
  pose proof (build_graph_times_valid fs Htime) as Hvalid.
  destruct (e_loop_terminates (build_graph fs) start dst earliest_departure)
    as (n1 & st & Hloop).
  pose proof (Hloop n1 (le_n _)) as Hloop1.
  destruct (e_loop_reaches_destination _ _ _ _ Hvalid _ _ Hloop1)
    as [b Hb]; [eauto|].
  pose proof (e_loop_inv _ _ _ _ Hkeyed Hvalid _ _ _
                (e_init_inv start earliest_departure) Hloop1) as Hinv.
  destruct (ei_dom _ _ _ Hinv _ _ Hb) as [?|[f Hf]]; [congruence|].
  destruct (e_walk_returns start earliest_departure st Hinv _ _ _ Hb
              (le_n _)) as (n2 & l & Hwalk).
  exists (max n1 n2), (mkItinerary (rev l)). intros fuel Hfuel.
  unfold find_earliest_itinerary.
  rewrite Hloop by lia. rewrite Hf. simpl.
  rewrite Hwalk by lia. done.
Qed.

Lemma earliest_finds_reachable_witness :
  Forall (fun f => depart f < arrive f) Overtaken.schedule1
  /\ "A" <> "C"
  /\ feasible_path (build_graph Overtaken.schedule1) "A" "C" 0
       [Overtaken.ab_dear; Overtaken.bc]
  /\ exists n it, forall fuel, (n <= fuel)%nat ->
       find_earliest_itinerary (build_graph Overtaken.schedule1) "A" "C" 0
         fuel = Ret (Some it).
Proof.
  assert (Ht : Forall (fun f => depart f < arrive f) Overtaken.schedule1)
    by (repeat constructor; simpl; lia).
  assert (Hne : "A" <> "C") by discriminate.
  split; [exact Ht|]. split; [exact Hne|].
  split; [apply OvertakenFacts.dear_path_feasible|].
  exact (earliest_finds_reachable Overtaken.schedule1 "A" "C" 0
           [Overtaken.ab_dear; Overtaken.bc] Ht Hne
           OvertakenFacts.dear_path_feasible).
Defined.

(* ===================================================================== *)
(** ** The end points of a returned itinerary *)
(* ===================================================================== *)

Lemma walk_shape_nonempty start cur l :
  cur <> start -> walk_shape start cur l -> l <> [].
Proof. intros Hne Hl ->. by simpl in Hl. Qed.

Lemma find_earliest_itinerary_shape graph start dst ed fuel it :
  find_earliest_itinerary graph start dst ed fuel = Ret (Some it) ->
  walk_shape start dst (rev (flights it)).
Proof.
  intros H. unfold find_earliest_itinerary in H.
  destruct (e_loop _ _ _ _ _ _) as [st|] eqn:Hloop; [|discriminate].
  destruct (_ && _); [discriminate|].
  apply bind_ret in H as ([l|] & Hw & [= <-]). simpl.
  rewrite rev_involutive.
  eapply e_walk_shape; [|exact Hw].
  eapply e_loop_prev_by_dest; [|exact Hloop].
  intros x f. simpl. by rewrite lookup_empty.
Qed.

Lemma find_cheapest_itinerary_shape graph start dst ed cabin fuel it :
  find_cheapest_itinerary graph start dst ed cabin fuel = Ret (Some it) ->
  start <> dst /\ walk_shape start dst (rev (flights it)).
Proof.
  intros H. split.
  - intros <-. unfold find_cheapest_itinerary in H.
    by rewrite c_loop_same_airport in H.
  - unfold find_cheapest_itinerary in H.
    destruct (c_loop _ _ _ _ _ _ _) as [st|] eqn:Hloop; [|discriminate].
    destruct (bool_decide _); [discriminate|].
    apply bind_ret in H as (l & Hw & [= <-]). simpl.
    rewrite rev_involutive.
    eapply c_walk_shape; [|exact Hw].
    eapply c_loop_prev_by_dest; [|exact Hloop].
    intros x f. simpl. by rewrite lookup_empty.
Qed.

Lemma walk_shape_endpoints start dst it :
  start <> dst -> walk_shape start dst (rev (flights it)) ->
  is_empty it = false
  /\ itin_origin it = Some start /\ itin_dest it = Some dst
  /\ (exists t, depart_time it = Some t)
  /\ (exists t, arrive_time it = Some t)
  /\ num_stops it = Z.of_nat (length (flights it)) - 1.
Proof.
  intros Hne Hshape.
  assert (Hnil : flights it <> []).
  { intros E. rewrite E in Hshape. simpl in Hshape. congruence. }
  apply walk_shape_rev in Hshape. rewrite rev_involutive in Hshape.
  apply path_shape_chained in Hshape as (_ & Hh & Hl).
  unfold is_empty, itin_origin, itin_dest, depart_time, arrive_time, num_stops.
  destruct (flights it) as [|f l] eqn:E; [done|].
  destruct (last (f :: l)) as [g|] eqn:El; [|by apply last_None in El].
  simpl. rewrite (Hh f eq_refl), (Hl g eq_refl).
  repeat split; eauto. lia.
Qed.

(** X12: an itinerary that the cheapest search returns, and one that the
    earliest search returns for a start different from the destination,
    has at least one flight: its origin and destination are the two
    arguments, its departure and arrival instants are defined and its
    stop count is the number of flights less one. *)
Theorem returned_itinerary_endpoints (graph : Graph) (start dst : string)
  (earliest_departure : Z) (cabin : Cabin) (fuel : nat) (it : Itinerary) :
  find_cheapest_itinerary graph start dst earliest_departure cabin fuel
    = Ret (Some it)
  \/ (start <> dst
      /\ find_earliest_itinerary graph start dst earliest_departure fuel
         = Ret (Some it)) ->
  is_empty it = false
  /\ itin_origin it = Some start /\ itin_dest it = Some dst
  /\ (exists t, depart_time it = Some t)
  /\ (exists t, arrive_time it = Some t)
  /\ num_stops it = Z.of_nat (length (flights it)) - 1.
Proof.
  intros [H|[Hne H]].
  - apply find_cheapest_itinerary_shape in H as [Hne H].
    by apply walk_shape_endpoints.
  - apply find_earliest_itinerary_shape in H.
    by apply walk_shape_endpoints.
Qed.

Lemma returned_itinerary_endpoints_witness :
  find_cheapest_itinerary (build_graph Scenario.two_legs) "A" "C" 420
    economy_cabin 3 = Ret (Some (mkItinerary [Scenario.ab; Scenario.bc]))
  /\ itin_origin (mkItinerary [Scenario.ab; Scenario.bc]) = Some "A"
  /\ itin_dest (mkItinerary [Scenario.ab; Scenario.bc]) = Some "C".
Proof.
  assert (H : find_cheapest_itinerary (build_graph Scenario.two_legs)
                "A" "C" 420 economy_cabin 3
              = Ret (Some (mkItinerary [Scenario.ab; Scenario.bc])))
    by (vm_compute; reflexivity).
  split; [exact H|].
  destruct (returned_itinerary_endpoints _ "A" "C" 420 economy_cabin 3
              (mkItinerary [Scenario.ab; Scenario.bc]) (or_introl H))
    as (_ & Ho & Hd & _).
  by split.
Defined.

(* ===================================================================== *)
(** ** A bound on the queue loop of the earliest search *)
(* ===================================================================== *)

Lemma improvable_le_1 best f : (improvable best f <= 1)%nat.
Proof.
  unfold improvable. destruct (best !! dest f); [|lia].
  destruct (_ <? _); lia.
Qed.

(** X13: on every graph the queue loop of the earliest search ends within
    2 n + 1 iterations, where n is the number of flights that the graph
    lists: each flight adds at most one queue entry. *)
Theorem earliest_loop_bound (graph : Graph) (start dst : string)
  (earliest_departure : Z) (fuel : nat) :
  (2 * length (all_flights graph) + 1 <= fuel)%nat ->
  exists st,
    e_loop graph start dst earliest_departure fuel
      (e_init start earliest_departure) = Some st.
Proof.
  intros Hfuel. apply e_loop_within_potential.
  unfold e_potential; simpl.
  assert (forall l, sum_list_with
                      (improvable {[start := earliest_departure]}) l
                    <= length l)%nat as Hsum.
  { induction l as [|f l IH]; simpl; [lia|].
    pose proof (improvable_le_1 {[start := earliest_departure]} f). lia. }
  specialize (Hsum (all_flights graph)). lia.
Qed.

Lemma earliest_loop_bound_witness :
  (2 * length (all_flights (build_graph Scenario.two_legs)) + 1 <= 5)%nat
  /\ exists st,
       e_loop (build_graph Scenario.two_legs) "A" "C" 420 5 (e_init "A" 420)
       = Some st.
Proof.
  assert (H : (2 * length (all_flights (build_graph Scenario.two_legs)) + 1
               <= 5)%nat) by (vm_compute; lia).
  split; [exact H|].
  exact (earliest_loop_bound (build_graph Scenario.two_legs) "A" "C" 420 5 H).
Defined.

(* ===================================================================== *)
(** ** The comparison table *)
(* ===================================================================== *)

Lemma row_cells_ret r :
  (forall it, row_itinerary r = Some it -> flights it <> []) ->
  exists c, row_cells r = Ret c.
Proof.
  intros Hok. unfold row_cells.
  destruct (row_itinerary r) as [it|]; [|eauto].
  specialize (Hok it eq_refl).
  unfold depart_time, arrive_time.
  destruct (flights it) as [|f l] eqn:E; [done|].
  destruct (last (f :: l)) as [g|] eqn:El; [|by apply last_None in El].
  simpl. eauto.
Qed.

Lemma row_cells_empty r it :
  row_itinerary r = Some it -> flights it = [] ->
  row_cells r = Raise TypeError.
Proof.
  intros Hit Hnil. unfold row_cells, depart_time. by rewrite Hit, Hnil.
Qed.

Lemma format_row_ret r :
  (forall it, row_itinerary r = Some it -> flights it <> []) ->
  exists s, format_row r = Ret s.
Proof.
  intros Hok. unfold format_row.
  destruct (row_cells_ret r Hok) as ([[[dep arr] stops] price] & ->).
  simpl. eauto.
Qed.

Lemma format_row_outcome r :
  (exists s, format_row r = Ret s) \/ format_row r = Raise TypeError.
Proof.
  destruct (row_itinerary r) as [it|] eqn:Hit.
  - destruct (flights it) as [|f l] eqn:E.
    + right. unfold format_row. by rewrite (row_cells_empty r it).
    + left. apply format_row_ret. intros it' Hit'. congruence.
  - left. apply format_row_ret. intros it' Hit'. congruence.
Qed.


Lemma format_rows_type_error rows : forall lines,
  Exists (fun r => exists it, row_itinerary r = Some it /\ flights it = [])
    rows ->
  format_rows rows lines = Raise TypeError.
Proof.
  induction rows as [|r rows IH]; intros lines Hbad; simpl;
    [by inversion Hbad|].
  destruct (format_row_outcome r) as [[s Hs]| ->]; [|done].
  rewrite Hs. simpl. apply IH.
  inversion Hbad as [? ? (it & Hit & Hnil)|]; subst; [|done].
  unfold format_row in Hs. by rewrite (row_cells_empty r it) in Hs.
Qed.




Lemma format_comparison_table_type_error_first origin dest ed r rows it :
  row_itinerary r = Some it -> flights it = [] ->
  format_comparison_table origin dest ed (r :: rows) = Raise TypeError.
Proof.
  intros Hit Hnil. unfold format_comparison_table.
  rewrite format_rows_type_error; [done|]. left. eauto.
Qed.

(* ===================================================================== *)
(** ** The [compare] command *)
(* ===================================================================== *)


(** X16: [compare] with the origin equal to the destination fails: once
    the departure time parses and the file loads, the earliest search
    hands over its itinerary without flights, and the table raises
    [TypeError] when it formats the departure time. *)
Theorem run_compare_same_airport (fuel : nat) (file : FlightFile)
  (airport time : string) (t : Z) (fs : list Flight) :
  parse_time time = Ret t ->
  load_flights file = Ret fs ->
  run_compare fuel (mkArgs file airport airport time) = Raise TypeError.
Proof.
  intros Ht Hfs. unfold run_compare, cheapest_row. simpl.
  rewrite Ht, Hfs. simpl.
  unfold find_earliest_itinerary, find_cheapest_itinerary.
  rewrite e_loop_same_airport, !c_loop_same_airport. simpl.
  rewrite String.eqb_refl, andb_false_r, e_walk_at_start. simpl.
  by eapply format_comparison_table_type_error_first.
Qed.





Lemma run_compare_same_airport_witness :
  parse_time "07:00" = Ret 420
  /\ load_flights Demo.file = Ret Scenario.two_legs
  /\ run_compare 0 (mkArgs Demo.file "A" "A" "07:00") = Raise TypeError.
Proof.
  assert (Ht : parse_time "07:00" = Ret 420) by (vm_compute; reflexivity).
  assert (Hfs : load_flights Demo.file = Ret Scenario.two_legs)
    by (vm_compute; reflexivity).
  split; [exact Ht|]. split; [exact Hfs|].
  exact (run_compare_same_airport 0 Demo.file "A" "07:00" 420
           Scenario.two_legs Ht Hfs).
Defined.

(* ===================================================================== *)
(** ** What a CSV table loads to *)
(* ===================================================================== *)

Lemma load_rows_csv_ret rs : forall acc fs,
  load_rows_csv rs acc = Ret fs
  <-> exists gs, Forall2 (fun row g => load_row_csv row = Ret g) rs gs
                 /\ fs = acc ++ gs.
Proof.
  induction rs as [|row rs IH]; intros acc fs; simpl.
  - split.
    + intros [= <-]. exists []. split; [constructor|by rewrite app_nil_r].
    + intros (gs & Hgs & ->). inversion Hgs; subst. by rewrite app_nil_r.
  - destruct (load_row_csv row) as [g| |] eqn:E; simpl.
    + rewrite IH. split.
      * intros (gs & Hgs & ->). exists (g :: gs).
        split; [by constructor|by rewrite <- app_assoc].
      * intros (gs & Hgs & ->).
        inversion Hgs as [|? g' ? gs' Hg Hrest]; subst.
        assert (g' = g) as -> by congruence.
        exists gs'. split; [done|by rewrite <- app_assoc].
    + split; [done|]. intros (gs & Hgs & _).
      inversion Hgs; subst. congruence.
    + split; [done|]. intros (gs & Hgs & _).
      inversion Hgs; subst. congruence.
Qed.

(** X18: [load_flights_csv] returns a list exactly when the header has
    the eight required columns and every record loads; the list then
    holds one flight per record, in the order of the records. *)
Theorem load_flights_csv_ret (table : CsvTable) (fs : list Flight) :
  load_flights_csv table = Ret fs
  <-> (forall k, In k required_columns -> In k (fieldnames table))
      /\ Forall2 (fun row g => load_row_csv row = Ret g) (rows table) fs.
Proof.
  unfold load_flights_csv.
  destruct (forallb _ required_columns) eqn:E; simpl.
  - rewrite load_rows_csv_ret. rewrite forallb_forall in E. split.
    + intros (gs & Hgs & ->). split; [|done].
      intros k Hk. apply E in Hk.
      by apply bool_decide_eq_true_1, list_elem_of_In in Hk.
    + intros [_ Hfs]. exists fs. by split.
  - split; [done|]. intros [Hcols _].
    assert (forallb (fun k => bool_decide (k ∈ fieldnames table))
              required_columns = true); [|congruence].
    apply forallb_forall. intros k Hk.
    apply bool_decide_eq_true_2, list_elem_of_In. by apply Hcols.
Qed.
